(** * CppAD: lowering an AD graph to LLVM IR, and the FunCheck example

    This development embeds
    - [llvm_ir::from_graph] (cppad_lib/llvm/ir_from_graph.cpp), the routine
      that turns a [cpp_graph] into an LLVM IR function with the signature
      [int32 f(int32 len_input, double* input_ptr,
               int32 len_output, double* output_ptr)], and
    - the test program of Example/FunCheck.cpp.

    The IR that [from_graph] emits through [llvm::IRBuilder] is kept as data
    (instructions, basic blocks, a function), and is given the meaning the
    LLVM language reference gives to the few instructions that occur.
    Doubles are IEEE binary64 values in the [spec_float] model of the
    standard library. *)

From Stdlib Require Import ZArith NArith Lia.
From Stdlib Require Import Floats.SpecFloat.
From Stdlib Require Import Reals Lra.
From stdpp Require Import base option list gmap strings.

Local Open Scope string_scope.

(** ** Machine numbers *)

(** [double]: IEEE binary64 (precision 53, maximal exponent 1024). *)
Definition double : Type := spec_float.

Definition prec64 : Z := 53.
Definition emax64 : Z := 1024.

Definition fadd : double -> double -> double := SFadd prec64 emax64.
Definition fsub : double -> double -> double := SFsub prec64 emax64.
Definition fmul : double -> double -> double := SFmul prec64 emax64.
Definition fdiv : double -> double -> double := SFdiv prec64 emax64.
Definition fneg : double -> double := SFopp.
(** ordered and equal: false as soon as one side is a NaN *)
Definition fcmp_oeq : double -> double -> bool := SFeqb.

Definition pos_zero : double := S754_zero false.
Definition neg_zero : double := S754_zero true.
Definition pos_inf : double := S754_infinity false.
Definition nan : double := S754_nan.

(** [size_t] is 64 bits wide; sums of two [size_t] wrap around. *)
Definition size_t_modulus : N := 2 ^ 64.
Definition size_t_add (a b : N) : N := ((a + b) mod size_t_modulus)%N.

(** [llvm::APInt(numBits, val, isSigned)]: the low [numBits] bits of [val]
    (for widths up to 64 [isSigned] does not change the stored bits). *)
Definition APInt (numBits : N) (val : N) (isSigned : bool) : Z :=
  (Z.of_N val mod 2 ^ Z.of_N numBits)%Z.

(** The signed reading of a [bits]-wide pattern. *)
Definition sext (bits : N) (v : Z) : Z :=
  (if v <? 2 ^ (Z.of_N bits - 1) then v else v - 2 ^ Z.of_N bits)%Z.

(** The pattern of a signed integer in [bits] bits. *)
Definition to_bits (bits : N) (v : Z) : Z := (v mod 2 ^ Z.of_N bits)%Z.

(** The range of an [int32]. *)
Definition int32_range (v : Z) : Prop := (- 2 ^ 31 <= v < 2 ^ 31)%Z.

(** ** The IR that the builder produces *)

Module Llvm.

(** The four formal arguments of the generated function. *)
Inductive argument := len_input | input_ptr | len_output | output_ptr.

(** [llvm::Value*]: the null pointer, a formal argument, the result of
    the instruction created as number [id] in the function, or a
    constant. *)
Inductive value :=
| nullptr
| Argument (a : argument)
| Inst (id : nat)
| ConstantInt (bits : N) (v : Z)
| ConstantFP (c : double).

Inductive instruction :=
| ICmpNE (lhs rhs : value)
| Or (lhs rhs : value)
| ZExtOrTrunc (v : value) (bits : N)
| GEP (ptr idx : value)
| Load (ptr : value)
| Store (val ptr : value)
| FAdd (lhs rhs : value)
| FSub (lhs rhs : value)
| FMul (lhs rhs : value)
| FDiv (lhs rhs : value)
| FNeg (v : value)
| Call (callee : string) (arg : value)
| FCmpOEQ (lhs rhs : value)
| Select (cond iftrue iffalse : value).

Inductive terminator :=
| CondBr (cond : value) (iftrue iffalse : string)
| Ret (v : value).

Record BasicBlock := {
  bb_label : string;
  bb_insts : list (nat * instruction);
  bb_term : option terminator
}.

Record Function := {
  fn_name : string;
  fn_blocks : list BasicBlock
}.

(** A module: the external functions it declares and the functions it
    defines. *)
Record Module := {
  mod_name : string;
  mod_declared : list string;
  mod_functions : list Function
}.

Definition operands (i : instruction) : list value :=
  match i with
  | ICmpNE a b | Or a b | GEP a b | Store a b
  | FAdd a b | FSub a b | FMul a b | FDiv a b | FCmpOEQ a b => [a; b]
  | ZExtOrTrunc a _ | Load a | FNeg a | Call _ a => [a]
  | Select c a b => [c; a; b]
  end.

Definition is_null (v : value) : bool :=
  match v with nullptr => true | _ => false end.

(** *** Execution *)

(** The two arrays a caller passes; they do not overlap. *)
Inductive buffer := InBuf | OutBuf.

Inductive rvalue :=
| RInt (bits : N) (v : Z)
| RDouble (d : double)
| RPtr (b : buffer) (off : Z)
| RVoid.

Record memory := {
  mem_in : list double;
  mem_out : list double
}.

Record machine := {
  regs : gmap nat rvalue;
  mem : memory
}.

(** The integer arguments of a call. *)
Record lengths := {
  arg_len_input : Z;
  arg_len_output : Z
}.

Definition eval_argument (a : lengths) (x : argument) : rvalue :=
  match x with
  | len_input => RInt 32 (to_bits 32 (arg_len_input a))
  | input_ptr => RPtr InBuf 0
  | len_output => RInt 32 (to_bits 32 (arg_len_output a))
  | output_ptr => RPtr OutBuf 0
  end.

Definition eval_value (a : lengths) (rs : gmap nat rvalue) (v : value)
  : option rvalue :=
  match v with
  | nullptr => None
  | Argument x => Some (eval_argument a x)
  | Inst id => rs !! id
  | ConstantInt bits z => Some (RInt bits z)
  | ConstantFP c => Some (RDouble c)
  end.

Definition get_buffer (m : memory) (b : buffer) : list double :=
  match b with InBuf => mem_in m | OutBuf => mem_out m end.

Definition set_buffer (m : memory) (b : buffer) (l : list double) : memory :=
  match b with
  | InBuf => {| mem_in := l; mem_out := mem_out m |}
  | OutBuf => {| mem_in := mem_in m; mem_out := l |}
  end.

(** A load or store outside the array is undefined behaviour: [None]. *)
Definition load (m : memory) (b : buffer) (off : Z) : option double :=
  if (off <? 0)%Z then None else get_buffer m b !! Z.to_nat off.

Definition store (m : memory) (b : buffer) (off : Z) (d : double)
  : option memory :=
  if (off <? 0)%Z then None
  else if decide (Z.to_nat off < length (get_buffer m b))
       then Some (set_buffer m b (<[Z.to_nat off := d]> (get_buffer m b)))
       else None.

Section Exec.
(** The C library function the module declares. *)
Variable acosh : double -> double.
Variable a : lengths.

Definition bool_bit (b : bool) : Z := if b then 1%Z else 0%Z.

Definition as_double (r : option rvalue) : option double :=
  match r with Some (RDouble d) => Some d | _ => None end.

Definition float_binop (f : double -> double -> double)
    (rs : gmap nat rvalue) (l r : value) : option rvalue :=
  x ← as_double (eval_value a rs l);
  y ← as_double (eval_value a rs r);
  Some (RDouble (f x y)).

(** One instruction: its result and the memory after it. *)
Definition exec_instruction (i : instruction) (m : machine)
  : option (rvalue * memory) :=
  let rs := regs m in
  match i with
  | ICmpNE l r =>
      match eval_value a rs l, eval_value a rs r with
      | Some (RInt b1 x), Some (RInt b2 y) =>
          if decide (b1 = b2)
          then Some (RInt 1 (bool_bit (negb (x =? y)%Z)), mem m)
          else None
      | _, _ => None
      end
  | Or l r =>
      match eval_value a rs l, eval_value a rs r with
      | Some (RInt b1 x), Some (RInt b2 y) =>
          if decide (b1 = b2)
          then Some (RInt b1 (Z.lor x y), mem m)
          else None
      | _, _ => None
      end
  | ZExtOrTrunc v bits =>
      match eval_value a rs v with
      | Some (RInt _ x) => Some (RInt bits (to_bits bits x), mem m)
      | _ => None
      end
  | GEP p idx =>
      match eval_value a rs p, eval_value a rs idx with
      | Some (RPtr b off), Some (RInt bits x) =>
          Some (RPtr b (off + sext bits x), mem m)
      | _, _ => None
      end
  | Load p =>
      match eval_value a rs p with
      | Some (RPtr b off) =>
          d ← load (mem m) b off; Some (RDouble d, mem m)
      | _ => None
      end
  | Store v p =>
      match eval_value a rs v, eval_value a rs p with
      | Some (RDouble d), Some (RPtr b off) =>
          m' ← store (mem m) b off d; Some (RVoid, m')
      | _, _ => None
      end
  | FAdd l r => r' ← float_binop fadd rs l r; Some (r', mem m)
  | FSub l r => r' ← float_binop fsub rs l r; Some (r', mem m)
  | FMul l r => r' ← float_binop fmul rs l r; Some (r', mem m)
  | FDiv l r => r' ← float_binop fdiv rs l r; Some (r', mem m)
  | FNeg v =>
      x ← as_double (eval_value a rs v); Some (RDouble (fneg x), mem m)
  | Call callee v =>
      if decide (callee = "acosh")
      then x ← as_double (eval_value a rs v);
           Some (RDouble (acosh x), mem m)
      else None
  | FCmpOEQ l r =>
      x ← as_double (eval_value a rs l);
      y ← as_double (eval_value a rs r);
      Some (RInt 1 (bool_bit (fcmp_oeq x y)), mem m)
  | Select c t f =>
      match eval_value a rs c with
      | Some (RInt 1 b) =>
          r ← eval_value a rs (if (b =? 1)%Z then t else f);
          Some (r, mem m)
      | _ => None
      end
  end.

Definition step (ii : nat * instruction) (m : machine) : option machine :=
  '(r, mem') ← exec_instruction ii.2 m;
  Some {| regs := <[ii.1 := r]> (regs m); mem := mem' |}.

Fixpoint exec_insts (l : list (nat * instruction)) (m : machine)
  : option machine :=
  match l with
  | [] => Some m
  | ii :: l' => m' ← step ii m; exec_insts l' m'
  end.

Definition find_block (blocks : list BasicBlock) (label : string)
  : option BasicBlock :=
  List.find (fun bb => bool_decide (bb_label bb = label)) blocks.

(** Run from the block [label] until a [ret]; every branch uses up one
    unit of [fuel]. *)
Fixpoint run_blocks (fuel : nat) (blocks : list BasicBlock)
    (label : string) (m : machine) : option (rvalue * machine) :=
  match fuel with
  | O => None
  | S fuel' =>
      bb ← find_block blocks label;
      m' ← exec_insts (bb_insts bb) m;
      match bb_term bb with
      | Some (Ret v) => r ← eval_value a (regs m') v; Some (r, m')
      | Some (CondBr c t f) =>
          match eval_value a (regs m') c with
          | Some (RInt 1 b) =>
              run_blocks fuel' blocks (if (b =? 1)%Z then t else f) m'
          | _ => None
          end
      | None => None
      end
  end.

End Exec.

(** A run of [fn]: control enters at the first block; the generated
    code has no back edge, so one unit of fuel per block is enough.  The
    result is the returned value and the machine at the [ret]. *)
Definition run (acosh : double -> double) (fn : Function)
    (len_in : Z) (input : list double) (len_out : Z) (output : list double)
  : option (rvalue * machine) :=
  let a := {| arg_len_input := len_in; arg_len_output := len_out |} in
  match fn_blocks fn with
  | [] => None
  | entry :: _ =>
      run_blocks acosh a (length (fn_blocks fn)) (fn_blocks fn)
        (bb_label entry)
        {| regs := ∅; mem := {| mem_in := input; mem_out := output |} |}
  end.

(** A call of [fn], as the caller sees it: the [int32] return value and
    the output array. *)
Definition call (acosh : double -> double) (fn : Function)
    (len_in : Z) (input : list double) (len_out : Z) (output : list double)
  : option (Z * list double) :=
  match run acosh fn len_in input len_out output with
  | Some (RInt 32 v, m) => Some (sext 32 v, mem_out (mem m))
  | _ => None
  end.

End Llvm.

(** ** The graph that is lowered *)

Module Graph.

(** Modelled from the spec: the declaration of [graph_op_enum] is not part
    of the sources at hand.  The seven tags that [from_graph] names are
    constructors of their own; every other tag of the enumeration is
    [other_graph_op k], [k] being its position. *)
Inductive graph_op_enum :=
| acosh_graph_op
| add_graph_op
| azmul_graph_op
| div_graph_op
| mul_graph_op
| neg_graph_op
| sub_graph_op
| other_graph_op (k : nat).

(** Modelled from the spec: the declaration of [cpp_graph] and of its
    iterator is not part of the sources at hand.  Dereferencing a
    [cpp_graph::const_iterator] yields the operator, its string indices,
    its number of results and its argument nodes (node indices start at 1;
    index 0 names no node). *)
Record itr_value := {
  op_enum : graph_op_enum;
  str_index : list N;
  n_result : N;
  arg_node : list N
}.

(** Modelled from the spec: a [cpp_graph] holds the function name, the
    three tables that must be empty here, the numbers of dynamic and of
    variable independents, the constants, the operators and the
    dependents.  It is seen through the accessors [from_graph] uses; the
    operators are listed as the iterator visits them. *)
Record cpp_graph := {
  function_name : string;
  discrete_name_vec : list string;
  atomic_name_vec : list string;
  print_text_vec : list string;
  n_dynamic_ind : N;
  n_variable_ind : N;
  constant_vec : list double;
  operator_vec : list itr_value;
  dependent_vec : list N
}.

Definition vec_size {A} (v : list A) : N := N.of_nat (length v).

Definition function_name_get (g : cpp_graph) : string := function_name g.
Definition discrete_name_vec_size (g : cpp_graph) : N :=
  vec_size (discrete_name_vec g).
Definition atomic_name_vec_size (g : cpp_graph) : N :=
  vec_size (atomic_name_vec g).
Definition print_text_vec_size (g : cpp_graph) : N :=
  vec_size (print_text_vec g).
Definition n_dynamic_ind_get (g : cpp_graph) : N := n_dynamic_ind g.
Definition n_variable_ind_get (g : cpp_graph) : N := n_variable_ind g.
Definition dependent_vec_size (g : cpp_graph) : N :=
  vec_size (dependent_vec g).
Definition constant_vec_size (g : cpp_graph) : N :=
  vec_size (constant_vec g).
Definition operator_vec_size (g : cpp_graph) : N :=
  vec_size (operator_vec g).

End Graph.

Export Graph.
Import Llvm.

(** ** The object [from_graph] is a member of *)

(** Modelled from the spec: the declaration of [llvm_ir] is not part of the
    sources at hand.  These are the members that [from_graph] assigns;
    [module_ir_] is [None] while the object holds no module. *)
Record llvm_ir := {
  n_dynamic_ind_ : N;
  n_variable_ind_ : N;
  n_variable_dep_ : N;
  function_name_ : string;
  module_ir_ : option Module
}.

(** ** The state of the construction, and its monad *)

(** The function under construction: the blocks that already have their
    terminator, whether the block at the builder's insertion point still
    lacks one, that block's label and the instructions appended to it so
    far, the number the next instruction gets, and the local vector
    [graph_ir]. *)
Record lower_state := {
  sealed : list BasicBlock;
  cur_open : bool;
  cur_label : string;
  cur_insts : list (nat * instruction);
  next_id : nat;
  graph_ir : list value
}.

(** A step of [from_graph] goes on with a result, leaves the routine with
    a message, or has no defined result (an index outside a vector, a null
    operand handed to the builder, a failed assertion). *)
Inductive outcome (A : Type) :=
| Next (x : A) (s : lower_state)
| Return (msg : string) (s : lower_state)
| Undefined.
Arguments Next {A} x s.
Arguments Return {A} msg s.
Arguments Undefined {A}.

Definition lowering (A : Type) : Type := lower_state -> outcome A.

Definition ret {A} (x : A) : lowering A := fun s => Next x s.

Definition bind {A B} (c : lowering A) (k : A -> lowering B) : lowering B :=
  fun s =>
    match c s with
    | Next x s' => k x s'
    | Return msg s' => Return msg s'
    | Undefined => Undefined
    end.

Declare Scope lowering_scope.
Delimit Scope lowering_scope with lowering.
Notation "x <- c ;; k" := (bind c (fun x => k))
  (at level 100, c at next level, right associativity) : lowering_scope.
Notation "c ;;; k" := (bind c (fun _ => k))
  (at level 100, right associativity) : lowering_scope.
Local Open Scope lowering_scope.

Definition return_msg {A} (msg : string) : lowering A :=
  fun s => Return msg s.

Definition undefined {A} : lowering A := fun _ => Undefined.

(** [v[i]] on a vector. *)
Definition vec_get {A} (v : list A) (i : N) : lowering A :=
  fun s =>
    match v !! N.to_nat i with
    | Some x => Next x s
    | None => Undefined
    end.

Definition graph_ir_get (i : N) : lowering value :=
  fun s => vec_get (graph_ir s) i s.

Definition graph_ir_push_back (v : value) : lowering unit :=
  fun s =>
    Next tt {| sealed := sealed s; cur_open := cur_open s;
               cur_label := cur_label s;
               cur_insts := cur_insts s; next_id := next_id s;
               graph_ir := graph_ir s ++ [v] |}.

(** [CPPAD_ASSERT_UNKNOWN(b)], compiled out under [NDEBUG]. *)
Definition CPPAD_ASSERT_UNKNOWN (NDEBUG : bool) (b : bool) : lowering unit :=
  if NDEBUG then ret tt else if b then ret tt else undefined.

(** The builder appends an instruction at its insertion point and hands
    back the instruction as a value. *)
Definition Insert (i : instruction) : lowering value :=
  fun s =>
    if existsb is_null (operands i) then Undefined
    else Next (Inst (next_id s))
           {| sealed := sealed s; cur_open := cur_open s;
              cur_label := cur_label s;
              cur_insts := cur_insts s ++ [(next_id s, i)];
              next_id := S (next_id s);
              graph_ir := graph_ir s |}.

Definition CreateICmpNE (l r : value) := Insert (ICmpNE l r).
Definition CreateOr (l r : value) := Insert (Or l r).
Definition CreateZExtOrTrunc (v : value) (bits : N) :=
  Insert (ZExtOrTrunc v bits).
Definition CreateGEP (ptr idx : value) := Insert (GEP ptr idx).
Definition CreateLoad (ptr : value) := Insert (Load ptr).
Definition CreateStore (val ptr : value) := Insert (Store val ptr).
Definition CreateFAdd (l r : value) := Insert (FAdd l r).
Definition CreateFSub (l r : value) := Insert (FSub l r).
Definition CreateFMul (l r : value) := Insert (FMul l r).
Definition CreateFDiv (l r : value) := Insert (FDiv l r).
Definition CreateFNeg (v : value) := Insert (FNeg v).
Definition CreateCall (callee : string) (arg : value) :=
  Insert (Call callee arg).
Definition CreateFCmpOEQ (l r : value) := Insert (FCmpOEQ l r).
Definition CreateSelect (c t f : value) := Insert (Select c t f).

(** A terminator closes the block at the insertion point. *)
Definition terminate (t : terminator) : lowering unit :=
  fun s =>
    if existsb is_null
         (match t with CondBr c _ _ => [c] | Ret v => [v] end)
    then Undefined
    else Next tt
           {| sealed := sealed s ++
                [{| bb_label := cur_label s; bb_insts := cur_insts s;
                    bb_term := Some t |}];
              cur_open := false;
              cur_label := cur_label s; cur_insts := [];
              next_id := next_id s; graph_ir := graph_ir s |}.

Definition CreateCondBr (c : value) (t f : string) := terminate (CondBr c t f).
Definition CreateRet (v : value) := terminate (Ret v).

(** Append the block [label] to the function and move the insertion point
    to it. *)
Definition SetInsertPoint (label : string) : lowering unit :=
  fun s =>
    Next tt {| sealed := sealed s; cur_open := true;
               cur_label := label; cur_insts := [];
               next_id := next_id s; graph_ir := graph_ir s |}.

(** [for(size_t i = first; ...; ++i) body(i)], run [count] times. *)
Fixpoint for_loop (count : nat) (i : N) (body : N -> lowering unit)
  : lowering unit :=
  match count with
  | O => ret tt
  | S count' => body i ;;; for_loop count' (N.succ i) body
  end.

(** [for(size_t i = 0; i < n; ++i) body(i)] *)
Definition for_size_t (n : N) (body : N -> lowering unit) : lowering unit :=
  for_loop (N.to_nat n) 0%N body.

(** The blocks of the function as the state has them: the closed ones and
    the one under construction. *)
Definition blocks_of (s : lower_state) : list BasicBlock :=
  sealed s ++
  if cur_open s
  then [{| bb_label := cur_label s; bb_insts := cur_insts s;
           bb_term := None |}]
  else [].

(** ** [llvm_ir::from_graph] *)

Section FromGraph.

(** Whether the library was compiled with [NDEBUG]. *)
Variable NDEBUG : bool.
(** The table [local::graph::op_enum2name]. *)
Variable op_enum2name : graph_op_enum -> string.
(** [llvm::verifyFunction]: [true] when the function is broken. *)
Variable verifyFunction : Function -> bool.

Definition unsupported_operator (msg : string) (op : graph_op_enum)
  : string :=
  msg +:+ "graph_obj has following unsupported operator "
      +:+ op_enum2name op.

(** The [switch] that exists in debug builds only. *)
Definition debug_switch (msg : string) (v : itr_value) : lowering unit :=
  let n_result := n_result v in
  let n_arg := vec_size (arg_node v) in
  let n_str := vec_size (str_index v) in
  match op_enum v with
  | acosh_graph_op | neg_graph_op =>
      CPPAD_ASSERT_UNKNOWN false (n_arg =? 1)%N ;;;
      CPPAD_ASSERT_UNKNOWN false (n_result =? 1)%N ;;;
      CPPAD_ASSERT_UNKNOWN false (n_str =? 0)%N
  | add_graph_op | sub_graph_op | mul_graph_op | div_graph_op
  | azmul_graph_op =>
      CPPAD_ASSERT_UNKNOWN false (n_arg =? 2)%N ;;;
      CPPAD_ASSERT_UNKNOWN false (n_result =? 1)%N ;;;
      CPPAD_ASSERT_UNKNOWN false (n_str =? 0)%N
  | other_graph_op _ =>
      return_msg (unsupported_operator msg (op_enum v))
  end.

(** [graph_ir[ arg[k] ]] *)
Definition graph_ir_arg (arg : list N) (k : N) : lowering value :=
  node <- vec_get arg k ;; graph_ir_get node.

(** The body of the loop over the operators of the graph. *)
Definition lower_operator (msg : string) (fp_zero : value) (v : itr_value)
  : lowering unit :=
  let arg := arg_node v in
  (if NDEBUG then ret tt else debug_switch msg v) ;;;
  match op_enum v with
  | acosh_graph_op =>
      x <- graph_ir_arg arg 0 ;;
      value <- CreateCall "acosh" x ;;
      graph_ir_push_back value
  | add_graph_op =>
      l <- graph_ir_arg arg 0 ;; r <- graph_ir_arg arg 1 ;;
      value <- CreateFAdd l r ;;
      graph_ir_push_back value
  | div_graph_op =>
      l <- graph_ir_arg arg 0 ;; r <- graph_ir_arg arg 1 ;;
      value <- CreateFDiv l r ;;
      graph_ir_push_back value
  | mul_graph_op =>
      l <- graph_ir_arg arg 0 ;; r <- graph_ir_arg arg 1 ;;
      value <- CreateFMul l r ;;
      graph_ir_push_back value
  | neg_graph_op =>
      x <- graph_ir_arg arg 0 ;;
      value <- CreateFNeg x ;;
      graph_ir_push_back value
  | sub_graph_op =>
      l <- graph_ir_arg arg 0 ;; r <- graph_ir_arg arg 1 ;;
      value <- CreateFSub l r ;;
      graph_ir_push_back value
  | azmul_graph_op =>
      l <- graph_ir_arg arg 0 ;; r <- graph_ir_arg arg 1 ;;
      value <- CreateFMul l r ;;
      l' <- graph_ir_arg arg 0 ;;
      is_zero <- CreateFCmpOEQ l' fp_zero ;;
      value <- CreateSelect is_zero fp_zero value ;;
      graph_ir_push_back value
  | other_graph_op _ =>
      return_msg (unsupported_operator msg (op_enum v))
  end.

(** Everything from the creation of the entry block to the final
    [ret]. *)
Definition build_function (msg : string) (graph_obj : cpp_graph)
  : lowering unit :=
  let n_dynamic_ind_ := n_dynamic_ind_get graph_obj in
  let n_variable_ind_ := n_variable_ind_get graph_obj in
  let n_variable_dep_ := dependent_vec_size graph_obj in
  let n_constant := constant_vec_size graph_obj in
  let n_operator := operator_vec_size graph_obj in
  (* check for error in len_input or len_output *)
  let n_input := size_t_add n_dynamic_ind_ n_variable_ind_ in
  let expected_len_input := ConstantInt 32 (APInt 32 n_input true) in
  error_len_input <- CreateICmpNE (Argument len_input) expected_len_input ;;
  let expected_len_output :=
    ConstantInt 32 (APInt 32 n_variable_dep_ true) in
  error_len_output <-
    CreateICmpNE (Argument len_output) expected_len_output ;;
  error_len <- CreateOr error_len_input error_len_output ;;
  error_no <- CreateZExtOrTrunc error_len 32 ;;
  (* if error_len, return error_no *)
  CreateCondBr error_len "error_bb" "merge_bb" ;;;
  SetInsertPoint "error_bb" ;;;
  CreateRet error_no ;;;
  SetInsertPoint "merge_bb" ;;;
  (* independent parameters *)
  for_size_t n_dynamic_ind_ (fun i =>
    let index := ConstantInt 32 (APInt 32 i false) in
    ptr <- CreateGEP (Argument input_ptr) index ;;
    value <- CreateLoad ptr ;;
    graph_ir_push_back value) ;;;
  (* independent variables *)
  for_size_t n_variable_ind_ (fun i =>
    let index :=
      ConstantInt 32 (APInt 32 (size_t_add n_dynamic_ind_ i) false) in
    ptr <- CreateGEP (Argument input_ptr) index ;;
    value <- CreateLoad ptr ;;
    graph_ir_push_back value) ;;;
  (* the zero floating point constant *)
  let fp_zero := ConstantFP pos_zero in
  (* constants *)
  for_size_t n_constant (fun i =>
    c_i <- vec_get (constant_vec graph_obj) i ;;
    graph_ir_push_back (ConstantFP c_i)) ;;;
  (* operators in the graph *)
  for_size_t n_operator (fun iop =>
    itr_value <- vec_get (operator_vec graph_obj) iop ;;
    lower_operator msg fp_zero itr_value) ;;;
  (* set dependent variable values *)
  for_size_t n_variable_dep_ (fun i =>
    let index := ConstantInt 32 (APInt 32 i false) in
    ptr <- CreateGEP (Argument output_ptr) index ;;
    node_index <- vec_get (dependent_vec graph_obj) i ;;
    value <- graph_ir_get node_index ;;
    _ <- CreateStore value ptr ;;
    ret tt) ;;;
  (* return zero for no error *)
  CreateRet error_no.

(** The builder on the fresh entry block; [graph_ir] holds nothing at
    index zero. *)
Definition initial_state : lower_state :=
  {| sealed := []; cur_open := true; cur_label := "EntryBlock";
     cur_insts := []; next_id := 0; graph_ir := [nullptr] |}.

(** The module [from_graph] creates, holding the function as built up to
    state [s]. *)
Definition module_of (name : string) (s : lower_state) : Module :=
  {| mod_name := "test"; mod_declared := ["acosh"];
     mod_functions := [{| fn_name := name; fn_blocks := blocks_of s |}] |}.

(** [msg = ir_obj.from_graph(graph_obj)]: the message and the object
    after the call, or [None] when the call has no defined result.

    Left out, as they do not bear on what the function computes: the
    names given to values ([p_i], [x_i], [y_i], the labels of [azmul]),
    the folding of constant operands by the builder, and the two
    assertions on the bookkeeping of the LLVM objects (the function has
    four arguments; the module finds the function under its name). *)
Definition from_graph (ir_obj : llvm_ir) (graph_obj : cpp_graph)
  : option (string * llvm_ir) :=
  let msg := "llvm_ir::from_graph: " in
  if negb (discrete_name_vec_size graph_obj =? 0)%N then
    Some (msg +:+ "graph_obj.discrete_name_vec_size() != 0", ir_obj)
  else if negb (atomic_name_vec_size graph_obj =? 0)%N then
    Some (msg +:+ "graph_obj.atomic_name_vec_size() != 0", ir_obj)
  else if negb (print_text_vec_size graph_obj =? 0)%N then
    Some (msg +:+ "graph_obj.print_text_vec_size() != 0", ir_obj)
  else
    let name := function_name_get graph_obj in
    let ir_obj :=
      {| n_dynamic_ind_ := n_dynamic_ind_get graph_obj;
         n_variable_ind_ := n_variable_ind_get graph_obj;
         n_variable_dep_ := dependent_vec_size graph_obj;
         function_name_ := name;
         module_ir_ := module_ir_ ir_obj |} in
    if bool_decide (name = "") then
      Some (msg +:+ "graph_obj.function_name_get() is empty", ir_obj)
    else
      let with_module s :=
        {| n_dynamic_ind_ := n_dynamic_ind_ ir_obj;
           n_variable_ind_ := n_variable_ind_ ir_obj;
           n_variable_dep_ := n_variable_dep_ ir_obj;
           function_name_ := name;
           module_ir_ := Some (module_of name s) |} in
      match build_function msg graph_obj initial_state with
      | Undefined => None
      | Return msg s => Some (msg, with_module s)
      | Next _ s =>
          let function_ir :=
            {| fn_name := name; fn_blocks := blocks_of s |} in
          let found_error := verifyFunction function_ir in
          if found_error then
            Some (msg +:+ "error during verification of llvm_ir function",
                  with_module s)
          else Some ("", with_module s)
      end.

(** The function the object holds after a call of [from_graph]. *)
Definition function_ir (ir_obj : llvm_ir) : option Function :=
  m ← module_ir_ ir_obj;
  List.find (fun f => bool_decide (fn_name f = function_name_ ir_obj))
    (mod_functions m).

End FromGraph.

(** ** The value table of a graph *)

(** This is the meaning of a graph as the specification words it: one slot
    per node index, slot 0 unused, then the dynamic independents read from
    the front of the input, the variable independents read after them, the
    constants, and one slot per operator, computed in sequence order. *)
Module ValueTable.

(** A slot of the table; [None] is the unused slot. *)
Definition slot : Type := option double.

Definition table_get (table : list slot) (node : N) : option double :=
  table !! N.to_nat node ≫= (fun sl => sl).

Section Eval.
Variable acosh : double -> double.

(** absolute-zero multiply *)
Definition azmul (x y : double) : double :=
  if fcmp_oeq x pos_zero then pos_zero else fmul x y.

Definition arg_value (table : list slot) (v : itr_value) (k : nat)
  : option double :=
  node ← arg_node v !! k; table_get table node.

Definition unary (f : double -> double) (table : list slot)
    (v : itr_value) : option double :=
  x ← arg_value table v 0; Some (f x).

Definition binary (f : double -> double -> double) (table : list slot)
    (v : itr_value) : option double :=
  x ← arg_value table v 0; y ← arg_value table v 1; Some (f x y).

Definition eval_node (table : list slot) (v : itr_value)
  : option double :=
  match op_enum v with
  | acosh_graph_op => unary acosh table v
  | neg_graph_op => unary fneg table v
  | add_graph_op => binary fadd table v
  | sub_graph_op => binary fsub table v
  | mul_graph_op => binary fmul table v
  | div_graph_op => binary fdiv table v
  | azmul_graph_op => binary azmul table v
  | other_graph_op _ => None
  end.

Fixpoint eval_nodes (ops : list itr_value) (table : list slot)
  : option (list slot) :=
  match ops with
  | [] => Some table
  | v :: ops' =>
      d ← eval_node table v; eval_nodes ops' (table ++ [Some d])
  end.

(** The slots that are filled before the first operator. *)
Definition independent_slots (g : cpp_graph) (input : list double)
  : list slot :=
  let n_dyn := N.to_nat (n_dynamic_ind g) in
  let n_var := N.to_nat (n_variable_ind g) in
  [None] ++ (Some <$> take n_dyn input)
         ++ (Some <$> take n_var (drop n_dyn input)).

Definition value_table (g : cpp_graph) (input : list double)
  : option (list slot) :=
  eval_nodes (operator_vec g)
    (independent_slots g input ++ (Some <$> constant_vec g)).

End Eval.

End ValueTable.

Import ValueTable.


(** ** The relation between the construction and the run of its result *)

Section SimulationRelation.
Variable acosh : double -> double.
Variable a : lengths.
(** the construction when the insertion point moved to the block under
    construction, and the machine on entry to that block *)
Variable s0 : lower_state.
Variable m0 : machine.

(** The builder value [v] stands for the table slot [sl]. *)
Definition slot_holds (rs : gmap nat rvalue) (v : value) (sl : slot)
  : Prop :=
  match sl with
  | None => v = nullptr
  | Some d => eval_value a rs v = Some (RDouble d)
  end.

(** State [s] of the construction against machine [m]: the insertion
    point has not moved, running the instructions appended so far leads
    from [m0] to [m], no register is ever written twice, and [graph_ir]
    stands for [table] slot by slot. *)
Record sim (table : list slot) (s : lower_state) (m : machine) : Prop := {
  sim_sealed : sealed s = sealed s0;
  sim_open : cur_open s = cur_open s0;
  sim_label : cur_label s = cur_label s0;
  sim_exec : exec_insts acosh a (cur_insts s) m0 = Some m;
  sim_regs : regs m0 ⊆ regs m;
  sim_fresh : forall id, next_id s <= id -> regs m !! id = None;
  sim_graph : Forall2 (slot_holds (regs m)) (graph_ir s) table
}.

End SimulationRelation.

(** ** The pieces of [build_function] *)

(** [build_function] is one routine; the statements below need names for
    the state after its prologue and for its loops. *)
Section Phases.
Variable NDEBUG : bool.
Variable op_enum2name : graph_op_enum -> string.

(** The entry block: two comparisons, their disjunction, and the
    disjunction widened to the 32 bits of the return value. *)
Definition entry_block (g : cpp_graph) : BasicBlock :=
  {| bb_label := "EntryBlock";
     bb_insts :=
       [(0, ICmpNE (Argument len_input)
              (ConstantInt 32
                 (APInt 32 (size_t_add (n_dynamic_ind g)
                              (n_variable_ind g)) true)));
        (1, ICmpNE (Argument len_output)
              (ConstantInt 32 (APInt 32 (dependent_vec_size g) true)));
        (2, Or (Inst 0) (Inst 1));
        (3, ZExtOrTrunc (Inst 2) 32)];
     bb_term := Some (CondBr (Inst 2) "error_bb" "merge_bb") |}.

Definition error_block : BasicBlock :=
  {| bb_label := "error_bb"; bb_insts := [];
     bb_term := Some (Ret (Inst 3)) |}.

(** The state when the insertion point has moved to [merge_bb]. *)
Definition merge_state (g : cpp_graph) : lower_state :=
  {| sealed := [entry_block g; error_block]; cur_open := true;
     cur_label := "merge_bb"; cur_insts := []; next_id := 4;
     graph_ir := [nullptr] |}.

(** Load [input_ptr[index]] and append it to [graph_ir]. *)
Definition load_input (index : N) : lowering unit :=
  ptr <- CreateGEP (Argument input_ptr)
           (ConstantInt 32 (APInt 32 index false)) ;;
  value <- CreateLoad ptr ;;
  graph_ir_push_back value.

Definition lower_dynamic (g : cpp_graph) : lowering unit :=
  for_size_t (n_dynamic_ind_get g) (fun i => load_input i).

Definition lower_variable (g : cpp_graph) : lowering unit :=
  for_size_t (n_variable_ind_get g)
    (fun i => load_input (size_t_add (n_dynamic_ind_get g) i)).

Definition lower_constants (g : cpp_graph) : lowering unit :=
  for_size_t (constant_vec_size g) (fun i =>
    c_i <- vec_get (constant_vec g) i ;;
    graph_ir_push_back (ConstantFP c_i)).

Definition lower_operators (msg : string) (g : cpp_graph)
  : lowering unit :=
  for_size_t (operator_vec_size g) (fun iop =>
    itr_value <- vec_get (operator_vec g) iop ;;
    lower_operator NDEBUG op_enum2name msg (ConstantFP pos_zero)
      itr_value).

Definition store_dependent (g : cpp_graph) (i : N) : lowering unit :=
  ptr <- CreateGEP (Argument output_ptr)
           (ConstantInt 32 (APInt 32 i false)) ;;
  node_index <- vec_get (dependent_vec g) i ;;
  value <- graph_ir_get node_index ;;
  _ <- CreateStore value ptr ;;
  ret tt.

Definition store_dependents (g : cpp_graph) : lowering unit :=
  for_size_t (dependent_vec_size g) (store_dependent g).

Definition merge_body (msg : string) (g : cpp_graph) : lowering unit :=
  lower_dynamic g ;;;
  lower_variable g ;;;
  lower_constants g ;;;
  lower_operators msg g ;;;
  store_dependents g ;;;
  CreateRet (Inst 3).

End Phases.

(** ** Graphs that the construction accepts without a fault *)

(** The number of slots before the first operator. *)
Definition first_operator_node (g : cpp_graph) : nat :=
  1 + N.to_nat (n_dynamic_ind g) + N.to_nat (n_variable_ind g)
    + length (constant_vec g).

(** A node index that names a filled slot among the first [size]. *)
Definition node_ok (size : nat) (node : N) : bool :=
  bool_decide (1 <= N.to_nat node < size).

(** The operator is one of the seven, and has the arguments, results and
    strings the iterator gives such an operator, all arguments naming
    slots among the first [size]. *)
Definition operator_ok (size : nat) (v : itr_value) : bool :=
  match op_enum v with
  | acosh_graph_op | neg_graph_op =>
      bool_decide (length (arg_node v) = 1)
  | add_graph_op | sub_graph_op | mul_graph_op | div_graph_op
  | azmul_graph_op =>
      bool_decide (length (arg_node v) = 2)
  | other_graph_op _ => false
  end
  && forallb (node_ok size) (arg_node v)
  && (n_result v =? 1)%N
  && bool_decide (str_index v = []).

(** Every operator refers to earlier slots only. *)
Fixpoint operators_ok (size : nat) (ops : list itr_value) : bool :=
  match ops with
  | [] => true
  | v :: ops' => operator_ok size v && operators_ok (S size) ops'
  end.

Definition supported (op : graph_op_enum) : bool :=
  match op with other_graph_op _ => false | _ => true end.

(** ** The run of the entry block *)

(** The test of the prologue, on the 32-bit patterns the comparison
    instructions see. *)
Definition length_error (g : cpp_graph) (a : lengths) : bool :=
  negb (to_bits 32 (arg_len_input a) =?
        APInt 32 (size_t_add (n_dynamic_ind g) (n_variable_ind g)) true)%Z
  || negb (to_bits 32 (arg_len_output a) =?
           APInt 32 (dependent_vec_size g) true)%Z.

(** The machine when control leaves the entry block. *)
Definition entry_machine (g : cpp_graph) (a : lengths)
    (input output : list double) : machine :=
  let e_in :=
    negb (to_bits 32 (arg_len_input a) =?
          APInt 32 (size_t_add (n_dynamic_ind g) (n_variable_ind g)) true)%Z
  in
  let e_out :=
    negb (to_bits 32 (arg_len_output a) =?
          APInt 32 (dependent_vec_size g) true)%Z in
  {| regs :=
       <[3 := RInt 32 (bool_bit (length_error g a))]>
         (<[2 := RInt 1 (bool_bit (length_error g a))]>
            (<[1 := RInt 1 (bool_bit e_out)]>
               (<[0 := RInt 1 (bool_bit e_in)]> ∅)));
     mem := {| mem_in := input; mem_out := output |} |}.

(** What the stores of the dependents put into the output: for each node
    index the value of its slot. *)
Definition stored_ok (table : list slot) (nodes : list N)
    (stored : list double) : Prop :=
  Forall2 (fun node d => table_get table node = Some d) nodes stored.

(** A step that never leaves [from_graph] with a message. *)
Definition never_returns {A} (c : lowering A) : Prop :=
  forall s msg s', c s <> Return msg s'.

(** ** Looking into a run *)

(** The vector [graph_ir] as [from_graph] leaves it, when it reaches the
    final [ret]. *)
Definition lowered_graph_ir (NDEBUG : bool)
    (op_enum2name : graph_op_enum -> string) (g : cpp_graph)
  : option (list value) :=
  match build_function NDEBUG op_enum2name "llvm_ir::from_graph: " g
          initial_state with
  | Next _ s => Some (graph_ir s)
  | _ => None
  end.

(** The value the run left in the instruction that [graph_ir] holds for
    [node]. *)
Definition node_value (a : lengths) (gi : list value)
    (rs : gmap nat rvalue) (node : N) : option double :=
  v ← gi !! N.to_nat node; as_double (eval_value a rs v).

(** The node index of the operator at position [k]. *)
Definition operator_node (g : cpp_graph) (k : nat) : N :=
  N.of_nat (first_operator_node g + k).

(** The conditions under which a call is within the contract of the
    generated function: the lengths are [int32] values and the arrays hold
    at least as many doubles as the lengths say. *)
Record call_ok (len_in : Z) (input : list double)
    (len_out : Z) (output : list double) : Prop := {
  call_len_in : int32_range len_in;
  call_len_out : int32_range len_out;
  call_input : (len_in <= Z.of_nat (length input))%Z;
  call_output : (len_out <= Z.of_nat (length output))%Z
}.

(** ** Invariants of the construction that do not depend on a run *)

(** State [s] continues state [s0] in the same block: the closed blocks
    and the insertion point are those of [s0], and the instructions
    appended since carry numbers from [next_id s0] on. *)
Record extends (s0 s : lower_state) : Prop := {
  ext_sealed : sealed s = sealed s0;
  ext_open : cur_open s = cur_open s0;
  ext_label : cur_label s = cur_label s0;
  ext_next : next_id s0 <= next_id s;
  ext_insts : exists new,
    cur_insts s = (cur_insts s0 ++ new)%list /\
    Forall (fun ii : nat * instruction => next_id s0 <= ii.1) new
}.

Definition extending {A} (c : lowering A) : Prop :=
  forall s x s', c s = Next x s' -> extends s s'.

(** [graph_ir] has [n] entries, and only the one at index 0 is null. *)
Definition filled (n : nat) (s : lower_state) : Prop :=
  length (graph_ir s) = n /\
  forall j v, 1 <= j -> graph_ir s !! j = Some v -> is_null v = false.


(** ** Calling what [from_graph] left in the object *)

Definition call_artifact (acosh : double -> double) (ir_obj : llvm_ir)
    (len_in : Z) (input : list double) (len_out : Z) (output : list double)
  : option (Z * list double) :=
  fn ← function_ir ir_obj; call acosh fn len_in input len_out output.

(** The value that the run of the artifact leaves in the instruction for
    [node]. *)
Definition run_node_value (acosh : double -> double) (NDEBUG : bool)
    (op_enum2name : graph_op_enum -> string) (ir_obj : llvm_ir)
    (g : cpp_graph)
    (len_in : Z) (input : list double) (len_out : Z) (output : list double)
    (node : N) : option double :=
  fn ← function_ir ir_obj;
  gi ← lowered_graph_ir NDEBUG op_enum2name g;
  rm ← run acosh fn len_in input len_out output;
  node_value {| arg_len_input := len_in; arg_len_output := len_out |}
    gi (regs rm.2) node.

(** ** Validation as the specification lists it *)

(** The checks of the specification, in its order and with its error
    names; [from_graph] is compared with this below. *)
Module SpecValidation.

Inductive feature := discrete | atomic | print.

Inductive ValidationError :=
  | UnsupportedFeature (kind : feature)
  | MissingName.

Definition validate (g : cpp_graph) : option ValidationError :=
    match discrete_name_vec g, atomic_name_vec g, print_text_vec g with
    | _ :: _, _, _ => Some (UnsupportedFeature discrete)
    | [], _ :: _, _ => Some (UnsupportedFeature atomic)
    | [], [], _ :: _ => Some (UnsupportedFeature print)
    | [], [], [] =>
        if bool_decide (function_name g = "") then Some MissingName
        else None
    end.

  (** The table of the graph that a feature lives in. *)
Definition table_of (kind : feature) : string :=
    match kind with
    | discrete => "discrete_name_vec"
    | atomic => "atomic_name_vec"
    | print => "print_text_vec"
    end.

  (** The message by which [from_graph] reports an error. *)
Definition message_of (e : ValidationError) : string :=
    match e with
    | UnsupportedFeature kind =>
        "llvm_ir::from_graph: graph_obj." +:+ table_of kind
          +:+ "_size() != 0"
    | MissingName =>
        "llvm_ir::from_graph: graph_obj.function_name_get() is empty"
    end.

End SpecValidation.

(** The messages of the two later failures. *)
Definition unsupported_operator_message
    (op_enum2name : graph_op_enum -> string) (op : graph_op_enum) : string :=
  "llvm_ir::from_graph: graph_obj has following unsupported operator "
    +:+ op_enum2name op.

Definition verification_message : string :=
  "llvm_ir::from_graph: error during verification of llvm_ir function".

(** The object after the scalar members and the name were assigned. *)
Definition with_scalars (ir_obj : llvm_ir) (g : cpp_graph) : llvm_ir :=
  {| n_dynamic_ind_ := n_dynamic_ind g;
     n_variable_ind_ := n_variable_ind g;
     n_variable_dep_ := dependent_vec_size g;
     function_name_ := function_name g;
     module_ir_ := module_ir_ ir_obj |}.

(** The object that holds the module with the function built up to
    [s]. *)
Definition with_function (g : cpp_graph) (s : lower_state) : llvm_ir :=
  {| n_dynamic_ind_ := n_dynamic_ind g;
     n_variable_ind_ := n_variable_ind g;
     n_variable_dep_ := dependent_vec_size g;
     function_name_ := function_name g;
     module_ir_ := Some (module_of (function_name g) s) |}.

(** * Example/FunCheck.cpp *)

(** Numbers are real numbers here: the example compares [exp] at [1] and
    [-1] with a tolerance of [1e-10], and no rounding is modelled. *)
Module FunCheckExample.

Local Open Scope R_scope.

(** What the template [Fun] asks of its scalar type. *)
Class Scalar (T : Type) := {
  s_exp : T -> T;
  s_neg : T -> T;
  s_ge_zero : T -> bool
}.

(** [double] *)
#[export] Instance double_scalar : Scalar R := {
  s_exp := exp;
  s_neg := Ropp;
  s_ge_zero x := if Rle_dec 0 x then true else false
}.

(** Modelled from the spec: the recording type [AD<double>] is not part
    of the sources at hand.  A recorded value carries its number and the
    operations that led to it from the independent variables; a
    comparison looks at the number only, so the branch a program takes
    while recording is not part of the operation sequence. *)
Inductive operation :=
| Ind (j : nat)
| ExpOp (x : operation)
| NegOp (x : operation).

Record AD := {
  Value : R;
  recorded : operation
}.

#[export] Instance AD_scalar : Scalar AD := {
  s_exp x := {| Value := exp (Value x); recorded := ExpOp (recorded x) |};
  s_neg x := {| Value := - Value x; recorded := NegOp (recorded x) |};
  s_ge_zero x := if Rle_dec 0 (Value x) then true else false
}.

(** [Fun<Type, Vector>::operator()] *)
Definition Fun {T} `{Scalar T} (n : nat) (x : list T) : list T :=
  (fun xi => if s_ge_zero xi then s_exp xi else s_exp (s_neg xi))
    <$> take n x.

(** Modelled from the spec: [CppAD::Independent] is not part of the
    sources at hand; it starts a recording with the given values as the
    independent variables. *)
Definition Independent (X : list R) : list AD :=
  imap (fun j v => {| Value := v; recorded := Ind j |}) X.

(** Modelled from the spec: [ADFun<double>] is not part of the sources at
    hand; [f(X, Y)] stops the recording and stores the operation
    sequence that leads from [X] to [Y]. *)
Definition ADFun : Type := list operation.

Definition Dependent (X Y : list AD) : ADFun := recorded <$> Y.

(** Replay of the stored operation sequence at [x]. *)
Fixpoint replay (x : list R) (o : operation) : R :=
  match o with
  | Ind j => default 0 (x !! j)
  | ExpOp o' => exp (replay x o')
  | NegOp o' => - replay x o'
  end.

Definition Forward0 (f : ADFun) (x : list R) : list R := replay x <$> f.

(** Modelled from the spec: the template [FunCheck] is not part of the
    sources at hand.  A component passes when
    [|candidate - reference| <= absolute_tol + relative_tol * |reference|];
    the result is the conjunction over the components. *)
Definition component_ok (a r : R) (candidate reference : R) : bool :=
  if Rle_dec (Rabs (candidate - reference)) (a + r * Rabs reference)
  then true else false.

Definition FunCheck (f : ADFun) (g : list R -> list R) (x : list R)
    (a r : R) : bool :=
  forallb (fun cr => component_ok a r cr.1 cr.2)
    (zip (Forward0 f x) (g x)).

(** The steps of [FunCheckCases]. *)
Definition n : nat := 2.
Definition X_first : list R := [-1; 1].
Definition r : R := 1e-10.
Definition a : R := 1e-10.

(** [Independent(X); Y = G(X); f(X, Y)] *)
Definition tape (X : list R) : ADFun :=
  let X' := Independent X in
  let Y := Fun n X' in
  Dependent X' Y.

(** function object to use with double *)
Definition g : list R -> list R := Fun n.

(** the independent variable values during the first recording *)
Definition x_same : list R := Value <$> Independent X_first.
(** their negatives *)
Definition x_negated : list R := Ropp <$> x_same.

Definition check_same : bool :=
  FunCheck (tape X_first) g x_same a r.
Definition check_negated : bool :=
  FunCheck (tape X_first) g x_negated a r.
Definition check_retaped : bool :=
  FunCheck (tape x_negated) g x_negated a r.

End FunCheckExample.

(** * Graphs and objects for the examples *)

Module Examples.

(** A default-constructed [llvm_ir] object. *)
Definition fresh_object : llvm_ir :=
  {| n_dynamic_ind_ := 0; n_variable_ind_ := 0; n_variable_dep_ := 0;
     function_name_ := ""; module_ir_ := None |}.

(** Names for the operators. *)
Definition example_names (op : graph_op_enum) : string :=
  match op with
  | acosh_graph_op => "acosh"
  | add_graph_op => "add"
  | azmul_graph_op => "azmul"
  | div_graph_op => "div"
  | mul_graph_op => "mul"
  | neg_graph_op => "neg"
  | sub_graph_op => "sub"
  | other_graph_op _ => "other"
  end.

(** A verifier that finds nothing wrong. *)
Definition verifier_accepts (f : Function) : bool := false.

(** The example graphs have no [acosh] node; any function serves. *)
Definition unused_acosh (x : double) : double := x.

(** [y = azmul(x0, x1)] *)
Definition azmul_node : itr_value :=
  {| op_enum := azmul_graph_op; str_index := []; n_result := 1;
     arg_node := [1%N; 2%N] |}.

Definition azmul_graph : cpp_graph :=
  {| function_name := "f"; discrete_name_vec := []; atomic_name_vec := [];
     print_text_vec := []; n_dynamic_ind := 0; n_variable_ind := 2;
     constant_vec := []; operator_vec := [azmul_node];
     dependent_vec := [3%N] |}.

Definition azmul_artifact : llvm_ir :=
  Eval vm_compute in
    match from_graph true example_names verifier_accepts fresh_object
            azmul_graph with
    | Some (_, ir_obj) => ir_obj
    | None => fresh_object
    end.



(** A graph that uses a discrete function, and has no name either. *)
Definition discrete_graph : cpp_graph :=
  {| function_name := ""; discrete_name_vec := ["floor"];
     atomic_name_vec := []; print_text_vec := []; n_dynamic_ind := 0;
     n_variable_ind := 1; constant_vec := []; operator_vec := [];
     dependent_vec := [1%N] |}.

(** [x0 + x1] followed by an operator outside the seven. *)
Definition unsupported_graph : cpp_graph :=
  {| function_name := "f"; discrete_name_vec := []; atomic_name_vec := [];
     print_text_vec := []; n_dynamic_ind := 0; n_variable_ind := 2;
     constant_vec := [];
     operator_vec :=
       [{| op_enum := add_graph_op; str_index := []; n_result := 1;
           arg_node := [1%N; 2%N] |};
        {| op_enum := other_graph_op 7; str_index := []; n_result := 1;
           arg_node := [3%N] |}];
     dependent_vec := [4%N] |}.

End Examples.
(** ** Reasoning about the construction monad *)

Lemma bind_Next {A B} (c : lowering A) (k : A -> lowering B) s y s' :
  bind c k s = Next y s' <->
  exists x s1, c s = Next x s1 /\ k x s1 = Next y s'.
Proof.
  unfold bind. destruct (c s) as [x s1 | msg s1 |]; split.
  - intros H. by exists x, s1.
  - by intros (x' & s1' & [= -> ->] & H).
  - done.
  - by intros (? & ? & ? & _).
  - done.
  - by intros (? & ? & ? & _).
Qed.

Lemma bind_Return {A B} (c : lowering A) (k : A -> lowering B) s msg s' :
  bind c k s = Return msg s' <->
  c s = Return msg s' \/
  exists x s1, c s = Next x s1 /\ k x s1 = Return msg s'.
Proof.
  unfold bind. destruct (c s) as [x s1 | msg1 s1 |]; split.
  - intros H. right. by exists x, s1.
  - intros [? | (x' & s1' & [= -> ->] & H)]; done.
  - intros [= -> ->]. by left.
  - intros [[= -> ->] | (? & ? & ? & _)]; done.
  - done.
  - intros [? | (? & ? & ? & _)]; done.
Qed.

Lemma for_loop_Next (P : N -> lower_state -> Prop) body count :
  forall first s s',
    (forall i s1 s2, (first <= i < first + N.of_nat count)%N ->
       P i s1 -> body i s1 = Next tt s2 -> P (N.succ i) s2) ->
    P first s ->
    for_loop count first body s = Next tt s' ->
    P (first + N.of_nat count)%N s'.
Proof.
  induction count as [| count IH]; intros first s s' Hbody HP Hrun.
  - injection Hrun as <-. by rewrite N.add_0_r.
  - cbn [for_loop] in Hrun. apply bind_Next in Hrun as ([] & s1 & H1 & H2).
    replace (first + N.of_nat (S count))%N
      with (N.succ first + N.of_nat count)%N by lia.
    eapply IH; [| | exact H2].
    + intros i sa sb Hi. apply Hbody. lia.
    + eapply Hbody; [| exact HP | exact H1]. lia.
Qed.

Lemma for_loop_progress (P : N -> lower_state -> Prop) body count :
  forall first s,
    (forall i s1, (first <= i < first + N.of_nat count)%N -> P i s1 ->
       exists s2, body i s1 = Next tt s2 /\ P (N.succ i) s2) ->
    P first s ->
    exists s', for_loop count first body s = Next tt s' /\
               P (first + N.of_nat count)%N s'.
Proof.
  induction count as [| count IH]; intros first s Hbody HP.
  - exists s. by rewrite N.add_0_r.
  - destruct (Hbody first s) as (s1 & H1 & HP1); [lia | done |].
    destruct (IH (N.succ first) s1) as (s' & H2 & HP2); [| done |].
    + intros i sa Hi. apply Hbody. lia.
    + exists s'. split.
      * cbn [for_loop]. unfold bind. by rewrite H1.
      * by replace (first + N.of_nat (S count))%N
          with (N.succ first + N.of_nat count)%N by lia.
Qed.

Lemma for_loop_Return (P : N -> lower_state -> Prop) body count :
  forall first s msg s',
    (forall i s1 s2, (first <= i < first + N.of_nat count)%N ->
       P i s1 -> body i s1 = Next tt s2 -> P (N.succ i) s2) ->
    P first s ->
    for_loop count first body s = Return msg s' ->
    exists i s1, (first <= i < first + N.of_nat count)%N /\ P i s1 /\
                 body i s1 = Return msg s'.
Proof.
  induction count as [| count IH]; intros first s msg s' Hbody HP Hrun.
  - done.
  - cbn [for_loop] in Hrun.
    apply bind_Return in Hrun as [H1 | ([] & s1 & H1 & H2)].
    + exists first, s. split; [lia | done].
    + destruct (IH (N.succ first) s1 msg s') as (i & sa & Hi & HPa & Ha).
      * intros i sa sb Hi. apply Hbody. lia.
      * eapply Hbody; [| exact HP | exact H1]. lia.
      * exact H2.
      * exists i, sa. split; [lia | done].
Qed.

(** ** Running what the builder appended *)

Section Simulation.
Variable acosh : double -> double.
Variable a : lengths.
Variable s0 : lower_state.
Variable m0 : machine.

Lemma exec_insts_app l1 l2 m :
  exec_insts acosh a (l1 ++ l2) m =
  exec_insts acosh a l1 m ≫= exec_insts acosh a l2.
Proof.
  revert m. induction l1 as [| ii l1 IH]; intros m; cbn; [done |].
  destruct (step acosh a ii m) as [m' |]; cbn; [apply IH | done].
Qed.

Lemma exec_insts_snoc l ii m m1 :
  exec_insts acosh a l m = Some m1 ->
  exec_insts acosh a (l ++ [ii]) m = step acosh a ii m1.
Proof.
  intros H. rewrite exec_insts_app, H. cbn.
  by destruct (step acosh a ii m1).
Qed.

Lemma eval_value_insert rs id r v r0 :
  rs !! id = None ->
  eval_value a rs v = Some r0 ->
  eval_value a (<[id := r]> rs) v = Some r0.
Proof.
  intros Hfresh. destruct v as [| x | id' | |]; cbn; try done.
  intros H. rewrite lookup_insert_ne; [done | congruence].
Qed.

Lemma slot_holds_insert rs id r v sl :
  rs !! id = None ->
  slot_holds a rs v sl -> slot_holds a (<[id := r]> rs) v sl.
Proof.
  intros Hfresh. destruct sl as [d |]; cbn; [| done].
  by apply eval_value_insert.
Qed.

Lemma Insert_Next i s v s' :
  Insert i s = Next v s' ->
  existsb is_null (operands i) = false /\
  v = Inst (next_id s) /\
  s' = {| sealed := sealed s; cur_open := cur_open s;
          cur_label := cur_label s;
          cur_insts := cur_insts s ++ [(next_id s, i)];
          next_id := S (next_id s); graph_ir := graph_ir s |}.
Proof.
  unfold Insert. destruct (existsb is_null (operands i)); [done |].
  by intros [= <- <-].
Qed.

Lemma Insert_not_Return i s msg s' : Insert i s <> Return msg s'.
Proof. unfold Insert. by destruct (existsb is_null (operands i)). Qed.

(** An instruction that runs on [m] extends the simulation. *)
Lemma sim_Insert table s m i v s' r mem' :
  sim acosh a s0 m0 table s m ->
  Insert i s = Next v s' ->
  exec_instruction acosh a i m = Some (r, mem') ->
  let m' := {| regs := <[next_id s := r]> (regs m); mem := mem' |} in
  v = Inst (next_id s) /\
  eval_value a (regs m') v = Some r /\
  sim acosh a s0 m0 table s' m'.
Proof.
  intros [Hsealed Hopen Hlabel Hexec Hregs Hfresh Hgraph] HI Hrun m'.
  apply Insert_Next in HI as (_ & -> & ->).
  assert (regs m !! next_id s = None) as Hid by (apply Hfresh; lia).
  split; [done |]. split.
  { cbn. by rewrite lookup_insert_eq. }
  split; cbn; try done.
  - rewrite (exec_insts_snoc _ _ _ _ Hexec). unfold step; cbn.
    by rewrite Hrun.
  - etrans; [exact Hregs |]. by apply insert_subseteq.
  - intros id Hle. rewrite lookup_insert_ne by lia. apply Hfresh. lia.
  - eapply Forall2_impl; [exact Hgraph |].
    intros v sl. by apply slot_holds_insert.
Qed.

Lemma sim_push_back table s m v d s' :
  sim acosh a s0 m0 table s m ->
  eval_value a (regs m) v = Some (RDouble d) ->
  graph_ir_push_back v s = Next tt s' ->
  sim acosh a s0 m0 (table ++ [Some d]) s' m.
Proof.
  intros [Hsealed Hopen Hlabel Hexec Hregs Hfresh Hgraph] Hv [= <-].
  split; cbn; try done.
  apply Forall2_app; [done |]. by constructor.
Qed.

Lemma sim_graph_ir_get table s m node v s' :
  sim acosh a s0 m0 table s m ->
  graph_ir_get node s = Next v s' ->
  s' = s /\
  exists sl, table !! N.to_nat node = Some sl /\ slot_holds a (regs m) v sl.
Proof.
  intros Hsim. unfold graph_ir_get, vec_get.
  destruct (graph_ir s !! N.to_nat node) as [v' |] eqn:Hv; [| done].
  intros [= <- <-]. split; [done |].
  destruct (Forall2_lookup_l _ _ _ _ _ (sim_graph _ _ _ _ _ _ _ Hsim) Hv)
    as (sl & Hsl & Hholds).
  by exists sl.
Qed.

Lemma sim_graph_ir_arg table s m arg k v s' :
  sim acosh a s0 m0 table s m ->
  graph_ir_arg arg k s = Next v s' ->
  s' = s /\
  exists node sl, arg !! N.to_nat k = Some node /\
    table !! N.to_nat node = Some sl /\ slot_holds a (regs m) v sl.
Proof.
  intros Hsim. unfold graph_ir_arg. intros H.
  apply bind_Next in H as (node & s1 & Hnode & Hget).
  unfold vec_get in Hnode.
  destruct (arg !! N.to_nat k) as [node' |] eqn:Harg; [| done].
  injection Hnode as <- <-.
  destruct (sim_graph_ir_get _ _ _ _ _ _ Hsim Hget) as (-> & sl & ? & ?).
  split; [done |]. by exists node', sl.
Qed.

(** A value that the builder accepted as an operand is not null, so the
    slot it stands for is a filled one. *)
Lemma slot_holds_operand rs v sl :
  is_null v = false -> slot_holds a rs v sl ->
  exists d, sl = Some d /\ eval_value a rs v = Some (RDouble d).
Proof.
  destruct sl as [d |]; cbn.
  - intros _ H. by exists d.
  - by intros Hn ->.
Qed.

End Simulation.

(** ** One operator of the graph *)

Section OperatorCorrect.
Variable acosh : double -> double.
Variable a : lengths.
Variable s0 : lower_state.
Variable m0 : machine.
Variable NDEBUG : bool.
Variable op_enum2name : graph_op_enum -> string.

Lemma CPPAD_ASSERT_UNKNOWN_Next nd b s x s' :
  CPPAD_ASSERT_UNKNOWN nd b s = Next x s' -> s' = s.
Proof.
  unfold CPPAD_ASSERT_UNKNOWN. destruct nd; [by intros [= _ <-] |].
  destruct b; [by intros [= _ <-] | done].
Qed.

Lemma debug_switch_Next msg v s x s' :
  debug_switch op_enum2name msg v s = Next x s' -> s' = s.
Proof.
  unfold debug_switch. destruct (op_enum v); try done; intros H;
    apply bind_Next in H as (? & s1 & H1 & H);
    apply bind_Next in H as (? & s2 & H2 & H3);
    apply CPPAD_ASSERT_UNKNOWN_Next in H1, H2, H3; congruence.
Qed.

Lemma table_get_Some (table : list slot) node d :
  table !! N.to_nat node = Some (Some d) -> table_get table node = Some d.
Proof. intros H. unfold table_get. by rewrite H. Qed.

Lemma arg_value_Some table v k node d :
  arg_node v !! k = Some node ->
  table !! N.to_nat node = Some (Some d) ->
  arg_value table v k = Some d.
Proof.
  intros Hn Ht. unfold arg_value, table_get. rewrite Hn. cbn.
  by rewrite Ht.
Qed.

(** An argument of the operator, fetched from [graph_ir] and accepted by
    the builder, has the value the table gives it. *)
Lemma operand_value table s m v k x s' :
  sim acosh a s0 m0 table s m ->
  graph_ir_arg (arg_node v) (N.of_nat k) s = Next x s' ->
  is_null x = false ->
  s' = s /\
  exists d, arg_value table v k = Some d /\
            eval_value a (regs m) x = Some (RDouble d).
Proof.
  intros Hsim Hget Hnn.
  destruct (sim_graph_ir_arg _ _ _ _ _ _ _ _ _ _ _ Hsim Hget)
    as (-> & node & sl & Harg & Hsl & Hholds).
  rewrite Nat2N.id in Harg.
  destruct (slot_holds_operand _ _ _ _ Hnn Hholds) as (d & -> & Hev).
  split; [done |]. exists d. split; [| done].
  by eapply arg_value_Some.
Qed.

Lemma unary_sim (mk : value -> instruction) (f : double -> double)
    table s m v s' :
  (forall x, operands (mk x) = [x]) ->
  (forall m x d, eval_value a (regs m) x = Some (RDouble d) ->
     exec_instruction acosh a (mk x) m = Some (RDouble (f d), mem m)) ->
  sim acosh a s0 m0 table s m ->
  (x <- graph_ir_arg (arg_node v) 0 ;;
   value <- Insert (mk x) ;;
   graph_ir_push_back value) s = Next tt s' ->
  exists m' d, unary f table v = Some d /\
    sim acosh a s0 m0 (table ++ [Some d]) s' m' /\ mem m' = mem m.
Proof.
  intros Hops Hrun Hsim H.
  apply bind_Next in H as (x & s1 & Hx & H).
  apply bind_Next in H as (value & s2 & HI & Hpush).
  pose proof (Insert_Next _ _ _ _ HI) as (Hnn & _ & _).
  rewrite Hops in Hnn. cbn in Hnn. apply orb_false_iff in Hnn as [Hnx _].
  destruct (operand_value table s m v 0 x s1 Hsim Hx Hnx)
    as (-> & d & Harg & Hev).
  destruct (sim_Insert _ _ _ _ _ _ _ _ _ _ _ _ Hsim HI (Hrun m x d Hev))
    as (_ & Hval & Hsim2).
  eexists _, (f d). split; [| split].
  - unfold unary. by rewrite Harg.
  - eapply sim_push_back; [exact Hsim2 | exact Hval | exact Hpush].
  - done.
Qed.

Lemma binary_sim (mk : value -> value -> instruction)
    (f : double -> double -> double) table s m v s' :
  (forall x y, operands (mk x y) = [x; y]) ->
  (forall m x y d e,
     eval_value a (regs m) x = Some (RDouble d) ->
     eval_value a (regs m) y = Some (RDouble e) ->
     exec_instruction acosh a (mk x y) m = Some (RDouble (f d e), mem m)) ->
  sim acosh a s0 m0 table s m ->
  (l <- graph_ir_arg (arg_node v) 0 ;;
   r <- graph_ir_arg (arg_node v) 1 ;;
   value <- Insert (mk l r) ;;
   graph_ir_push_back value) s = Next tt s' ->
  exists m' d, binary f table v = Some d /\
    sim acosh a s0 m0 (table ++ [Some d]) s' m' /\ mem m' = mem m.
Proof.
  intros Hops Hrun Hsim H.
  apply bind_Next in H as (l & s1 & Hl & H).
  apply bind_Next in H as (r & s2 & Hr & H).
  apply bind_Next in H as (value & s3 & HI & Hpush).
  pose proof (Insert_Next _ _ _ _ HI) as (Hnn & _ & _).
  rewrite Hops in Hnn. cbn in Hnn.
  apply orb_false_iff in Hnn as [Hnl Hnn].
  apply orb_false_iff in Hnn as [Hnr _].
  destruct (operand_value table s m v 0 l s1 Hsim Hl Hnl)
    as (-> & d & Hargl & Hevl).
  destruct (operand_value table s m v 1 r s2 Hsim Hr Hnr)
    as (-> & e & Hargr & Hevr).
  destruct (sim_Insert _ _ _ _ _ _ _ _ _ _ _ _ Hsim HI
              (Hrun m l r d e Hevl Hevr)) as (_ & Hval & Hsim2).
  eexists _, (f d e). split; [| split].
  - unfold binary. by rewrite Hargl, Hargr.
  - eapply sim_push_back; [exact Hsim2 | exact Hval | exact Hpush].
  - done.
Qed.

Lemma exec_float_binop (mk : value -> value -> instruction) f m x y d e :
  (forall m, exec_instruction acosh a (mk x y) m =
     r' ← float_binop a f (regs m) x y; Some (r', mem m)) ->
  eval_value a (regs m) x = Some (RDouble d) ->
  eval_value a (regs m) y = Some (RDouble e) ->
  exec_instruction acosh a (mk x y) m = Some (RDouble (f d e), mem m).
Proof.
  intros -> Hx Hy. unfold float_binop. by rewrite Hx, Hy.
Qed.

(** The three instructions of [azmul]. *)
Lemma azmul_sim table s m v s' :
  let fp_zero := ConstantFP pos_zero in
  sim acosh a s0 m0 table s m ->
  (l <- graph_ir_arg (arg_node v) 0 ;;
   r <- graph_ir_arg (arg_node v) 1 ;;
   value <- CreateFMul l r ;;
   l' <- graph_ir_arg (arg_node v) 0 ;;
   is_zero <- CreateFCmpOEQ l' fp_zero ;;
   value <- CreateSelect is_zero fp_zero value ;;
   graph_ir_push_back value) s = Next tt s' ->
  exists m' d, binary azmul table v = Some d /\
    sim acosh a s0 m0 (table ++ [Some d]) s' m' /\ mem m' = mem m.
Proof.
  intros fp_zero Hsim H.
  apply bind_Next in H as (l & s1 & Hl & H).
  apply bind_Next in H as (r & s2 & Hr & H).
  apply bind_Next in H as (prod & s3 & Hmul & H).
  apply bind_Next in H as (l' & s4 & Hl' & H).
  apply bind_Next in H as (is_zero & s5 & Hcmp & H).
  apply bind_Next in H as (value & s6 & Hsel & Hpush).
  pose proof (Insert_Next _ _ _ _ Hmul) as (Hnn & _ & _).
  cbn in Hnn. apply orb_false_iff in Hnn as [Hnl Hnn].
  apply orb_false_iff in Hnn as [Hnr _].
  destruct (operand_value table s m v 0 l s1 Hsim Hl Hnl)
    as (-> & d & Hargl & Hevl).
  destruct (operand_value table s m v 1 r s2 Hsim Hr Hnr)
    as (-> & e & Hargr & Hevr).
  (* the product *)
  assert (exec_instruction acosh a (FMul l r) m
          = Some (RDouble (fmul d e), mem m)) as Hrun1.
  { cbn. unfold float_binop. by rewrite Hevl, Hevr. }
  destruct (sim_Insert _ _ _ _ _ _ _ _ _ _ _ _ Hsim Hmul Hrun1)
    as (-> & Hprod & Hsim3).
  set (m3 := {| regs := <[next_id s := RDouble (fmul d e)]> (regs m);
                mem := mem m |}) in *.
  (* the comparison of the first argument with zero *)
  pose proof (Insert_Next _ _ _ _ Hcmp) as (Hnn & _ & _).
  cbn in Hnn. apply orb_false_iff in Hnn as [Hnl' _].
  destruct (operand_value table s3 m3 v 0 l' s4 Hsim3 Hl' Hnl')
    as (-> & d' & Hargl' & Hevl').
  assert (d' = d) as -> by congruence.
  assert (exec_instruction acosh a (FCmpOEQ l' fp_zero) m3
          = Some (RInt 1 (bool_bit (fcmp_oeq d pos_zero)), mem m3))
    as Hrun2.
  { unfold exec_instruction. cbv zeta. by rewrite Hevl'. }
  destruct (sim_Insert _ _ _ _ _ _ _ _ _ _ _ _ Hsim3 Hcmp Hrun2)
    as (-> & Hz & Hsim5).
  set (m5 := {| regs := <[next_id s3 := _]> (regs m3); mem := mem m3 |})
    in *.
  (* the selection *)
  assert (eval_value a (regs m5) (Inst (next_id s))
          = Some (RDouble (fmul d e))) as Hprod5.
  { apply eval_value_insert; [| exact Hprod].
    apply (sim_fresh _ _ _ _ _ _ _ Hsim3). lia. }
  assert (exec_instruction acosh a
            (Select (Inst (next_id s3)) fp_zero (Inst (next_id s))) m5
          = Some (RDouble (azmul d e), mem m5)) as Hrun3.
  { unfold exec_instruction. cbv zeta. rewrite Hz. unfold azmul.
    destruct (fcmp_oeq d pos_zero); cbn [bool_bit Z.eqb Pos.eqb].
    - done.
    - by rewrite Hprod5. }
  destruct (sim_Insert _ _ _ _ _ _ _ _ _ _ _ _ Hsim5 Hsel Hrun3)
    as (-> & Hval & Hsim6).
  eexists _, (azmul d e). split; [| split].
  - unfold binary. by rewrite Hargl, Hargr.
  - eapply sim_push_back; [exact Hsim6 | exact Hval | exact Hpush].
  - done.
Qed.

(** The loop body: it appends the slot [eval_node] computes. *)
Lemma lower_operator_sim msg table s m v s' :
  sim acosh a s0 m0 table s m ->
  lower_operator NDEBUG op_enum2name msg (ConstantFP pos_zero) v s
    = Next tt s' ->
  exists m' d, eval_node acosh table v = Some d /\
    sim acosh a s0 m0 (table ++ [Some d]) s' m' /\ mem m' = mem m.
Proof.
  intros Hsim H. unfold lower_operator in H.
  apply bind_Next in H as (? & s1 & Hdebug & H).
  assert (s1 = s) as ->.
  { destruct NDEBUG; [by injection Hdebug |].
    by eapply debug_switch_Next. }
  unfold eval_node. destruct (op_enum v).
  - eapply (unary_sim (Call "acosh") acosh); [done | | done | exact H].
    intros m1 y d Hev. cbn. by rewrite Hev.
  - eapply (binary_sim FAdd fadd); [done | | done | exact H].
    intros. by apply (exec_float_binop FAdd).
  - by eapply azmul_sim.
  - eapply (binary_sim FDiv fdiv); [done | | done | exact H].
    intros. by apply (exec_float_binop FDiv).
  - eapply (binary_sim FMul fmul); [done | | done | exact H].
    intros. by apply (exec_float_binop FMul).
  - eapply (unary_sim FNeg fneg); [done | | done | exact H].
    intros m1 y d Hev. cbn. by rewrite Hev.
  - eapply (binary_sim FSub fsub); [done | | done | exact H].
    intros. by apply (exec_float_binop FSub).
  - done.
Qed.

End OperatorCorrect.

(** ** The prologue *)

Lemma build_function_merge NDEBUG names msg g :
  build_function NDEBUG names msg g initial_state
  = merge_body NDEBUG names msg g (merge_state g).
Proof. reflexivity. Qed.

(** ** Arithmetic of the 32-bit indices *)

Lemma APInt_small bits n sg :
  (Z.of_N n < 2 ^ Z.of_N bits)%Z -> APInt bits n sg = Z.of_N n.
Proof. intros H. unfold APInt. apply Z.mod_small. lia. Qed.

Lemma sext_small bits v :
  (v < 2 ^ (Z.of_N bits - 1))%Z -> sext bits v = v.
Proof. intros H. unfold sext. by rewrite (proj2 (Z.ltb_lt _ _) H). Qed.

Lemma sext_APInt_32 n sg :
  (n < 2 ^ 31)%N -> sext 32 (APInt 32 n sg) = Z.of_N n.
Proof.
  intros H. assert (Z.of_N n < 2 ^ 31)%Z by lia.
  rewrite APInt_small by (change (2 ^ Z.of_N 32)%Z with (2 ^ 32)%Z; lia).
  by apply sext_small.
Qed.

Lemma size_t_add_small x y :
  (x + y < 2 ^ 64)%N -> size_t_add x y = (x + y)%N.
Proof. intros H. unfold size_t_add. by apply N.mod_small. Qed.

Lemma lor_bool_bit x y :
  Z.lor (bool_bit x) (bool_bit y) = bool_bit (x || y).
Proof. by destruct x, y. Qed.

Lemma to_bits_bool_bit b : to_bits 32 (bool_bit b) = bool_bit b.
Proof. by destruct b. Qed.

(** ** The run of the generated function *)

Section Run.
Variable acosh : double -> double.

Lemma exec_insts_cons_Some a ii l m r mem' :
  exec_instruction acosh a ii.2 m = Some (r, mem') ->
  exec_insts acosh a (ii :: l) m
  = exec_insts acosh a l {| regs := <[ii.1 := r]> (regs m); mem := mem' |}.
Proof. intros H. cbn [exec_insts]. unfold step. by rewrite H. Qed.

Lemma exec_entry_block g a input output :
  exec_insts acosh a (bb_insts (entry_block g))
    {| regs := ∅; mem := {| mem_in := input; mem_out := output |} |}
  = Some (entry_machine g a input output).
Proof.
  unfold entry_machine, length_error. cbn [bb_insts entry_block].
  do 4 (erewrite exec_insts_cons_Some; [| by cbn]).
  cbn. by rewrite !lor_bool_bit, to_bits_bool_bit.
Qed.

(** A run of a function made of the entry block, the error block and a
    closed [merge_bb]: the error block returns the widened test, [1];
    otherwise the body of [merge_bb] runs and register 3 is returned. *)
Lemma run_three_blocks name g insts lin input lout output :
  let a := {| arg_len_input := lin; arg_len_output := lout |} in
  run acosh
    {| fn_name := name;
       fn_blocks := [entry_block g; error_block;
                     {| bb_label := "merge_bb"; bb_insts := insts;
                        bb_term := Some (Ret (Inst 3)) |}] |}
    lin input lout output
  = if length_error g a
    then Some (RInt 32 1, entry_machine g a input output)
    else
      m ← exec_insts acosh a insts (entry_machine g a input output);
      r ← regs m !! 3;
      Some (r, m).
Proof.
  intros a. unfold run. cbn [fn_blocks length].
  set (merge := {| bb_label := "merge_bb"; bb_insts := insts;
                   bb_term := Some (Ret (Inst 3)) |}).
  set (blocks := [entry_block g; error_block; merge]).
  assert (find_block blocks "EntryBlock" = Some (entry_block g))
    as HfE by done.
  assert (find_block blocks "error_bb" = Some error_block) as Hfe by done.
  assert (find_block blocks "merge_bb" = Some merge) as Hfm by done.
  change (bb_label (entry_block g)) with "EntryBlock".
  cbn [run_blocks]. rewrite HfE. cbn [mbind option_bind].
  fold a. rewrite exec_entry_block. cbn [mbind option_bind].
  assert (regs (entry_machine g a input output) !! 2
          = Some (RInt 1 (bool_bit (length_error g a)))) as H2 by done.
  assert (regs (entry_machine g a input output) !! 3
          = Some (RInt 32 (bool_bit (length_error g a)))) as H3 by done.
  change (bb_term (entry_block g))
    with (Some (CondBr (Inst 2) "error_bb" "merge_bb")).
  cbn [eval_value]. rewrite H2.
  destruct (length_error g a); cbn [bool_bit Z.eqb Pos.eqb].
  - rewrite Hfe.
    cbn [mbind option_bind error_block bb_insts bb_term exec_insts
         eval_value].
    by rewrite H3.
  - rewrite Hfm. by cbn [mbind option_bind merge bb_insts bb_term].
Qed.

End Run.

(** ** The body of [merge_bb], loop by loop *)

Section Body.
Variable acosh : double -> double.
Variable NDEBUG : bool.
Variable op_enum2name : graph_op_enum -> string.
Variable a : lengths.
Variable s0 : lower_state.
Variable m0 : machine.

Local Abbreviation input := (mem_in (mem m0)).

Lemma load_input_sim table s m idx d s' :
  sim acosh a s0 m0 table s m -> mem m = mem m0 ->
  (idx < 2 ^ 31)%N -> input !! N.to_nat idx = Some d ->
  load_input idx s = Next tt s' ->
  exists m', sim acosh a s0 m0 (table ++ [Some d]) s' m' /\ mem m' = mem m0.
Proof.
  intros Hsim Hmem Hidx Hd H. unfold load_input in H.
  apply bind_Next in H as (ptr & s1 & Hgep & H).
  apply bind_Next in H as (value & s2 & Hload & Hpush).
  assert (exec_instruction acosh a
            (GEP (Argument input_ptr)
               (ConstantInt 32 (APInt 32 idx false))) m
          = Some (RPtr InBuf (Z.of_N idx), mem m)) as Hrun1.
  { cbn. by rewrite sext_APInt_32. }
  destruct (sim_Insert _ _ _ _ _ _ _ _ _ _ _ _ Hsim Hgep Hrun1)
    as (-> & Hptr & Hsim1).
  set (m1 := {| regs := _; mem := mem m |}) in *.
  assert (exec_instruction acosh a (Load (Inst (next_id s))) m1
          = Some (RDouble d, mem m1)) as Hrun2.
  { unfold exec_instruction. cbv zeta. rewrite Hptr.
    unfold load. rewrite (proj2 (Z.ltb_ge _ _)) by lia.
    cbn [mem m1 get_buffer]. rewrite Hmem.
    replace (Z.to_nat (Z.of_N idx)) with (N.to_nat idx) by lia.
    by rewrite Hd. }
  destruct (sim_Insert _ _ _ _ _ _ _ _ _ _ _ _ Hsim1 Hload Hrun2)
    as (-> & Hval & Hsim2).
  eexists. split; [| shelve].
  eapply sim_push_back; [exact Hsim2 | exact Hval | exact Hpush].
  Unshelve. done.
Qed.

(** A loop that loads [n] consecutive doubles starting at [off]. *)
Lemma load_loop_sim (f : N -> N) off n table s m s' :
  (forall i, (i < n)%N -> f i = (off + i)%N) ->
  (off + n < 2 ^ 31)%N ->
  N.to_nat (off + n) <= length input ->
  sim acosh a s0 m0 table s m -> mem m = mem m0 ->
  for_size_t n (fun i => load_input (f i)) s = Next tt s' ->
  exists m',
    sim acosh a s0 m0
      (table ++ (Some <$> take (N.to_nat n) (drop (N.to_nat off) input)))
      s' m' /\
    mem m' = mem m0.
Proof.
  intros Hf Hsmall Hlen Hsim Hmem Hrun. unfold for_size_t in Hrun.
  pose (P := fun (i : N) (s1 : lower_state) =>
    exists m1,
      sim acosh a s0 m0
        (table ++ (Some <$> take (N.to_nat i) (drop (N.to_nat off) input)))
        s1 m1 /\
      mem m1 = mem m0).
  assert (P (0 + N.of_nat (N.to_nat n))%N s') as HP.
  { eapply (for_loop_Next P); [| | exact Hrun].
    - intros i s1 s2 Hi (m1 & Hsim1 & Hmem1) Hbody.
      assert (i < n)%N as Hin by lia.
      destruct (lookup_lt_is_Some_2 (drop (N.to_nat off) input)
                  (N.to_nat i)) as [d Hd].
      { rewrite length_drop. lia. }
      rewrite (Hf i Hin) in Hbody.
      destruct (load_input_sim _ s1 m1 (off + i)%N d s2 Hsim1 Hmem1)
        as (m2 & Hsim2 & Hmem2); [lia | | exact Hbody |].
      { rewrite lookup_drop in Hd.
        by replace (N.to_nat (off + i)) with (N.to_nat off + N.to_nat i)
          by lia. }
      exists m2. split; [| done].
      rewrite N2Nat.inj_succ, (take_S_r _ _ d Hd), fmap_app, app_assoc.
      exact Hsim2.
    - exists m. split; [| done]. cbn. by rewrite app_nil_r. }
  destruct HP as (m' & Hsim' & Hmem').
  exists m'. split; [| done].
  by rewrite N.add_0_l, N2Nat.id in Hsim'.
Qed.

Lemma lower_constants_sim g table s m s' :
  sim acosh a s0 m0 table s m -> mem m = mem m0 ->
  lower_constants g s = Next tt s' ->
  exists m',
    sim acosh a s0 m0 (table ++ (Some <$> constant_vec g)) s' m' /\
    mem m' = mem m0.
Proof.
  intros Hsim Hmem Hrun. unfold lower_constants, for_size_t in Hrun.
  pose (P := fun (i : N) (s1 : lower_state) =>
    exists m1,
      sim acosh a s0 m0
        (table ++ (Some <$> take (N.to_nat i) (constant_vec g))) s1 m1 /\
      mem m1 = mem m0).
  assert (P (0 + N.of_nat (N.to_nat (constant_vec_size g)))%N s') as HP.
  { eapply (for_loop_Next P); [| | exact Hrun].
    - intros i s1 s2 Hi (m1 & Hsim1 & Hmem1) Hbody.
      apply bind_Next in Hbody as (c_i & s3 & Hget & Hpush).
      unfold vec_get in Hget.
      destruct (constant_vec g !! N.to_nat i) as [c |] eqn:Hc; [| done].
      injection Hget as <- <-.
      exists m1. split; [| done].
      rewrite N2Nat.inj_succ, (take_S_r _ _ c Hc), fmap_app, app_assoc.
      eapply (sim_push_back _ _ _ _ _ _ _ (ConstantFP c));
        [exact Hsim1 | reflexivity | exact Hpush].
    - exists m. split; [| done]. cbn. by rewrite app_nil_r. }
  destruct HP as (m' & Hsim' & Hmem').
  exists m'. split; [| done].
  unfold constant_vec_size, vec_size in Hsim'.
  by rewrite N.add_0_l, !Nat2N.id, firstn_all in Hsim'.
Qed.

Lemma eval_nodes_app ops1 ops2 table :
  eval_nodes acosh (ops1 ++ ops2) table
  = eval_nodes acosh ops1 table ≫= eval_nodes acosh ops2.
Proof.
  revert table. induction ops1 as [| v ops1 IH]; intros table; [done |].
  cbn. destruct (eval_node acosh table v); cbn; [apply IH | done].
Qed.

Lemma lower_operators_sim msg g table s m s' :
  sim acosh a s0 m0 table s m -> mem m = mem m0 ->
  lower_operators NDEBUG op_enum2name msg g s = Next tt s' ->
  exists m' table',
    eval_nodes acosh (operator_vec g) table = Some table' /\
    sim acosh a s0 m0 table' s' m' /\ mem m' = mem m0.
Proof.
  intros Hsim Hmem Hrun. unfold lower_operators, for_size_t in Hrun.
  pose (P := fun (i : N) (s1 : lower_state) =>
    exists m1 table1,
      eval_nodes acosh (take (N.to_nat i) (operator_vec g)) table
        = Some table1 /\
      sim acosh a s0 m0 table1 s1 m1 /\ mem m1 = mem m0).
  assert (P (0 + N.of_nat (N.to_nat (operator_vec_size g)))%N s') as HP.
  { eapply (for_loop_Next P); [| | exact Hrun].
    - intros i s1 s2 Hi (m1 & table1 & Hev & Hsim1 & Hmem1) Hbody.
      apply bind_Next in Hbody as (v & s3 & Hget & Hlow).
      unfold vec_get in Hget.
      destruct (operator_vec g !! N.to_nat i) as [v' |] eqn:Hv; [| done].
      injection Hget as <- <-.
      destruct (lower_operator_sim _ _ _ _ _ _ _ _ _ _ _ _ Hsim1 Hlow)
        as (m2 & d & Hnode & Hsim2 & Hmem2).
      exists m2, (table1 ++ [Some d])%list. split; [| split].
      + rewrite N2Nat.inj_succ, (take_S_r _ _ v' Hv), eval_nodes_app, Hev.
        cbn. by rewrite Hnode.
      + done.
      + congruence.
    - by exists m, table. }
  destruct HP as (m' & table' & Hev & Hsim' & Hmem').
  exists m', table'. split; [| done].
  unfold operator_vec_size, vec_size in Hev.
  by rewrite N.add_0_l, !Nat2N.id, firstn_all in Hev.
Qed.

Local Abbreviation output := (mem_out (mem m0)).

Lemma store_dependent_sim g table s m i stored s' :
  sim acosh a s0 m0 table s m ->
  mem_in (mem m) = input ->
  mem_out (mem m) = (stored ++ drop (N.to_nat i) output)%list ->
  length stored = N.to_nat i ->
  (i < 2 ^ 31)%N -> N.to_nat i < length output ->
  store_dependent g i s = Next tt s' ->
  exists m' node d,
    dependent_vec g !! N.to_nat i = Some node /\
    table_get table node = Some d /\
    sim acosh a s0 m0 table s' m' /\
    mem_in (mem m') = input /\
    mem_out (mem m')
    = ((stored ++ [d]) ++ drop (S (N.to_nat i)) output)%list.
Proof.
  intros Hsim Hin Hout Hlen Hi Hlt H. unfold store_dependent in H.
  apply bind_Next in H as (ptr & s1 & Hgep & H).
  apply bind_Next in H as (node & s2 & Hnode & H).
  apply bind_Next in H as (value & s3 & Hget & H).
  apply bind_Next in H as (? & s4 & Hstore & Hret).
  injection Hret as <-.
  assert (exec_instruction acosh a
            (GEP (Argument output_ptr)
               (ConstantInt 32 (APInt 32 i false))) m
          = Some (RPtr OutBuf (Z.of_N i), mem m)) as Hrun1.
  { cbn. by rewrite sext_APInt_32. }
  destruct (sim_Insert _ _ _ _ _ _ _ _ _ _ _ _ Hsim Hgep Hrun1)
    as (-> & Hptr & Hsim1).
  set (m1 := {| regs := _; mem := mem m |}) in *.
  unfold vec_get in Hnode.
  destruct (dependent_vec g !! N.to_nat i) as [node' |] eqn:Hdep;
    [| done].
  injection Hnode as <- <-.
  destruct (sim_graph_ir_get _ _ _ _ _ _ _ _ _ _ Hsim1 Hget)
    as (-> & sl & Hsl & Hholds).
  pose proof (Insert_Next _ _ _ _ Hstore) as (Hnn & _ & _).
  cbn in Hnn. apply orb_false_iff in Hnn as [Hnv _].
  destruct (slot_holds_operand _ _ _ _ Hnv Hholds) as (d & -> & Hev).
  destruct (drop (N.to_nat i) output) as [| old rest] eqn:Hdrop.
  { apply (f_equal length) in Hdrop. rewrite length_drop in Hdrop.
    cbn in Hdrop. lia. }
  assert (drop (S (N.to_nat i)) output = rest) as Hrest.
  { replace (S (N.to_nat i)) with (N.to_nat i + 1) by lia.
    by rewrite <- drop_drop, Hdrop. }
  assert (exec_instruction acosh a (Store value (Inst (next_id s))) m1
          = Some (RVoid,
                  {| mem_in := input;
                     mem_out := ((stored ++ [d]) ++ rest)%list |}))
    as Hrun2.
  { unfold exec_instruction. cbv zeta. rewrite Hev, Hptr.
    unfold store. rewrite (proj2 (Z.ltb_ge _ _)) by lia.
    cbn [mem m1 get_buffer set_buffer]. rewrite Hout, Hin.
    replace (Z.to_nat (Z.of_N i)) with (N.to_nat i) by lia.
    rewrite decide_True by (rewrite length_app; cbn; lia).
    cbn. do 3 f_equal.
    rewrite <- Hlen, insert_app_r_alt, Nat.sub_diag by lia.
    cbn. by rewrite <- app_assoc. }
  destruct (sim_Insert _ _ _ _ _ _ _ _ _ _ _ _ Hsim1 Hstore Hrun2)
    as (_ & _ & Hsim2).
  eexists _, node', d. split; [done |]. split.
  { by apply table_get_Some. }
  split; [exact Hsim2 |]. split; [done |]. cbn. by rewrite Hrest.
Qed.

Lemma store_dependents_sim g table s m s' :
  sim acosh a s0 m0 table s m -> mem m = mem m0 ->
  (dependent_vec_size g < 2 ^ 31)%N ->
  length (dependent_vec g) <= length output ->
  store_dependents g s = Next tt s' ->
  exists m' stored,
    sim acosh a s0 m0 table s' m' /\
    stored_ok table (dependent_vec g) stored /\
    mem_out (mem m')
    = (stored ++ drop (length (dependent_vec g)) output)%list.
Proof.
  intros Hsim Hmem Hsmall Hlen Hrun.
  unfold store_dependents, for_size_t in Hrun.
  pose (P := fun (i : N) (s1 : lower_state) =>
    exists m1 stored,
      sim acosh a s0 m0 table s1 m1 /\
      mem_in (mem m1) = input /\
      stored_ok table (take (N.to_nat i) (dependent_vec g)) stored /\
      mem_out (mem m1) = (stored ++ drop (N.to_nat i) output)%list).
  assert (P (0 + N.of_nat (N.to_nat (dependent_vec_size g)))%N s') as HP.
  { eapply (for_loop_Next P); [| | exact Hrun].
    - intros i s1 s2 Hi (m1 & stored & Hsim1 & Hin1 & Hst & Hout1) Hbody.
      unfold dependent_vec_size, vec_size in Hi, Hsmall.
      assert (length stored = N.to_nat i) as Hls.
      { rewrite <- (Forall2_length _ _ _ Hst), length_take. lia. }
      destruct (store_dependent_sim g table s1 m1 i stored s2)
        as (m2 & node & d & Hdep & Hd & Hsim2 & Hin2 & Hout2);
        try done; try lia.
      exists m2, (stored ++ [d])%list. split; [done |]. split; [done |].
      split.
      + rewrite N2Nat.inj_succ, (take_S_r _ _ node Hdep).
        apply Forall2_app; [done |]. by constructor.
      + by rewrite N2Nat.inj_succ.
    - exists m, []. split; [done |]. split; [by rewrite Hmem |].
      split; [by constructor |]. cbn. by rewrite Hmem, drop_0. }
  destruct HP as (m' & stored & Hsim' & _ & Hst & Hout').
  unfold dependent_vec_size, vec_size in Hst, Hout'.
  rewrite N.add_0_l, !Nat2N.id in Hst, Hout'. rewrite firstn_all in Hst.
  by exists m', stored.
Qed.

End Body.

(** ** Where [from_graph] can return a message *)

Create HintDb lowering.

Lemma never_returns_ret {A} (x : A) : never_returns (ret x).
Proof. by intros s msg s'. Qed.

Lemma never_returns_undefined {A} : never_returns (@undefined A).
Proof. by intros s msg s'. Qed.

Lemma never_returns_bind {A B} (c : lowering A) (k : A -> lowering B) :
  never_returns c -> (forall x, never_returns (k x)) ->
  never_returns (bind c k).
Proof.
  intros Hc Hk s msg s' H. apply bind_Return in H as [H | (x & s1 & _ & H)].
  - by apply Hc in H.
  - by apply Hk in H.
Qed.

Lemma never_returns_vec_get {A} (v : list A) i : never_returns (vec_get v i).
Proof. intros s msg s'. unfold vec_get. by destruct (v !! N.to_nat i). Qed.

Lemma never_returns_graph_ir_get i : never_returns (graph_ir_get i).
Proof. intros s msg s'. unfold graph_ir_get. apply never_returns_vec_get. Qed.

Lemma never_returns_push_back v : never_returns (graph_ir_push_back v).
Proof. by intros s msg s'. Qed.

Lemma never_returns_Insert i : never_returns (Insert i).
Proof. intros s msg s'. apply Insert_not_Return. Qed.

Lemma never_returns_terminate t : never_returns (terminate t).
Proof.
  intros s msg s'. unfold terminate. by destruct (existsb _ _).
Qed.

Lemma never_returns_SetInsertPoint l : never_returns (SetInsertPoint l).
Proof. by intros s msg s'. Qed.

Lemma never_returns_assert nd b : never_returns (CPPAD_ASSERT_UNKNOWN nd b).
Proof. intros s msg s'. unfold CPPAD_ASSERT_UNKNOWN. by destruct nd, b. Qed.

Lemma never_returns_for_loop body count :
  (forall i, never_returns (body i)) ->
  forall first, never_returns (for_loop count first body).
Proof.
  intros Hbody. induction count as [| count IH]; intros first.
  - apply never_returns_ret.
  - cbn [for_loop]. apply never_returns_bind; [apply Hbody |].
    intros _. apply IH.
Qed.

#[export] Hint Resolve never_returns_ret never_returns_undefined
  never_returns_vec_get never_returns_graph_ir_get never_returns_push_back
  never_returns_Insert never_returns_terminate never_returns_SetInsertPoint
  never_returns_assert : lowering.

#[export] Hint Resolve never_returns_bind never_returns_for_loop : lowering.

Section Return.
Variable NDEBUG : bool.
Variable op_enum2name : graph_op_enum -> string.

Lemma never_returns_load_input idx : never_returns (load_input idx).
Proof. unfold load_input, CreateGEP, CreateLoad. auto 30 with lowering. Qed.

Lemma never_returns_lower_dynamic g : never_returns (lower_dynamic g).
Proof.
  unfold lower_dynamic, for_size_t. apply never_returns_for_loop.
  intros i. apply never_returns_load_input.
Qed.

Lemma never_returns_lower_variable g : never_returns (lower_variable g).
Proof.
  unfold lower_variable, for_size_t. apply never_returns_for_loop.
  intros i. apply never_returns_load_input.
Qed.

Lemma never_returns_lower_constants g : never_returns (lower_constants g).
Proof. unfold lower_constants, for_size_t. auto 30 with lowering. Qed.

Lemma never_returns_store_dependents g :
  never_returns (store_dependents g).
Proof.
  unfold store_dependents, for_size_t, store_dependent, CreateGEP,
    CreateStore.
  auto 30 with lowering.
Qed.

(** The loop body returns a message for the tags outside the seven, and
    for no other; the message names the tag. *)
Lemma lower_operator_Return msg fp_zero v s msg' s' :
  lower_operator NDEBUG op_enum2name msg fp_zero v s = Return msg' s' ->
  supported (op_enum v) = false /\
  msg' = unsupported_operator op_enum2name msg (op_enum v) /\
  s' = s.
Proof.
  unfold lower_operator, debug_switch, graph_ir_arg, CreateCall,
    CreateFAdd, CreateFSub, CreateFMul, CreateFDiv, CreateFNeg,
    CreateFCmpOEQ, CreateSelect.
  destruct (op_enum v) eqn:Hop;
    try solve
      [ intros H; exfalso; revert H;
        apply never_returns_bind;
        [destruct NDEBUG; auto 30 with lowering
        | intros ?; auto 30 with lowering] ].
  intros H. split; [done |].
  apply bind_Return in H as [H | (? & s1 & H1 & H)].
  - destruct NDEBUG; [done |]. by injection H as <- <-.
  - destruct NDEBUG; [| done]. injection H1 as <-. by injection H as <- <-.
Qed.

Lemma lower_operators_Return msg g s msg' s' :
  lower_operators NDEBUG op_enum2name msg g s = Return msg' s' ->
  exists v, v ∈ operator_vec g /\ supported (op_enum v) = false /\
            msg' = unsupported_operator op_enum2name msg (op_enum v).
Proof.
  unfold lower_operators, for_size_t. intros H.
  destruct (for_loop_Return (fun _ _ => True) _ _ _ _ _ _
              (fun _ _ _ _ _ _ => I) I H) as (i & s1 & _ & _ & Hbody).
  apply bind_Return in Hbody as [Hget | (v & s2 & Hget & Hlow)].
  { by apply never_returns_vec_get in Hget. }
  unfold vec_get in Hget.
  destruct (operator_vec g !! N.to_nat i) as [v' |] eqn:Hv; [| done].
  injection Hget as <- <-.
  apply lower_operator_Return in Hlow as (Hs & -> & _).
  exists v'. split; [| done]. by eapply list_elem_of_lookup_2.
Qed.

Lemma merge_body_Return msg g s msg' s' :
  merge_body NDEBUG op_enum2name msg g s = Return msg' s' ->
  exists v, v ∈ operator_vec g /\ supported (op_enum v) = false /\
            msg' = unsupported_operator op_enum2name msg (op_enum v).
Proof.
  unfold merge_body. intros H.
  apply bind_Return in H as [H | (? & s1 & _ & H)].
  { by apply never_returns_lower_dynamic in H. }
  apply bind_Return in H as [H | (? & s2 & _ & H)].
  { by apply never_returns_lower_variable in H. }
  apply bind_Return in H as [H | (? & s3 & _ & H)].
  { by apply never_returns_lower_constants in H. }
  apply bind_Return in H as [H | (? & s4 & _ & H)].
  { by eapply lower_operators_Return. }
  apply bind_Return in H as [H | (? & s5 & _ & H)].
  { by apply never_returns_store_dependents in H. }
  by apply never_returns_terminate in H.
Qed.

End Return.

(** ** The whole function on the path without a length error *)

Section Success.
Variable acosh : double -> double.
Variable NDEBUG : bool.
Variable op_enum2name : graph_op_enum -> string.

Lemma entry_machine_fresh g a input output id :
  4 <= id -> regs (entry_machine g a input output) !! id = None.
Proof.
  intros H. unfold entry_machine. cbn [regs].
  rewrite !lookup_insert_ne by lia. apply lookup_empty.
Qed.

Lemma independent_slots_eq g (input : list double) :
  independent_slots g input
  = (([None] ++ (Some <$> take (N.to_nat (n_dynamic_ind g))
                            (drop (N.to_nat 0) input)))
       ++ (Some <$> take (N.to_nat (n_variable_ind g))
                      (drop (N.to_nat (n_dynamic_ind g)) input)))%list.
Proof. done. Qed.

(** The simulation, from the first load to the final [ret]. *)
Lemma merge_body_sim msg g a input output s' :
  let m0 := entry_machine g a input output in
  (n_dynamic_ind g + n_variable_ind g < 2 ^ 31)%N ->
  N.to_nat (n_dynamic_ind g + n_variable_ind g) <= length input ->
  (dependent_vec_size g < 2 ^ 31)%N ->
  length (dependent_vec g) <= length output ->
  merge_body NDEBUG op_enum2name msg g (merge_state g) = Next tt s' ->
  exists insts m table stored,
    blocks_of s'
    = [entry_block g; error_block;
       {| bb_label := "merge_bb"; bb_insts := insts;
          bb_term := Some (Ret (Inst 3)) |}] /\
    exec_insts acosh a insts m0 = Some m /\
    regs m0 ⊆ regs m /\
    value_table acosh g input = Some table /\
    Forall2 (slot_holds a (regs m)) (graph_ir s') table /\
    stored_ok table (dependent_vec g) stored /\
    mem_out (mem m)
    = (stored ++ drop (length (dependent_vec g)) output)%list.
Proof.
  intros m0 Hsmall Hlen Hdsmall Hdlen H. unfold merge_body in H.
  apply bind_Next in H as ([] & s1 & Hdyn & H).
  apply bind_Next in H as ([] & s2 & Hvar & H).
  apply bind_Next in H as ([] & s3 & Hcon & H).
  apply bind_Next in H as ([] & s4 & Hops & H).
  apply bind_Next in H as ([] & s5 & Hdep & Hret).
  assert (sim acosh a (merge_state g) m0 [None] (merge_state g) m0)
    as Hsim0.
  { split; try done.
    - intros id Hid. apply entry_machine_fresh. cbn in Hid. lia.
    - by repeat constructor. }
  destruct (load_loop_sim acosh a (merge_state g) m0 (fun i => i) 0
              (n_dynamic_ind g) [None] (merge_state g) m0 s1)
    as (m1 & Hsim1 & Hmem1); try done; try (cbn; lia).
  edestruct (load_loop_sim acosh a (merge_state g) m0
               (fun i => size_t_add (n_dynamic_ind_get g) i)
               (n_dynamic_ind g) (n_variable_ind g))
    as (m2 & Hsim2 & Hmem2);
    [| exact Hsmall | exact Hlen | exact Hsim1 | exact Hmem1 | exact Hvar |].
  { intros i Hi. apply size_t_add_small.
    unfold n_dynamic_ind_get.
    assert (2 ^ 31 < 2 ^ 64)%N by done. lia. }
  rewrite <- independent_slots_eq in Hsim2.
  destruct (lower_constants_sim acosh a _ m0 g _ _ _ _ Hsim2 Hmem2 Hcon)
    as (m3 & Hsim3 & Hmem3).
  destruct (lower_operators_sim acosh NDEBUG op_enum2name a _ m0 msg g
              _ _ _ _ Hsim3 Hmem3 Hops)
    as (m4 & table & Htable & Hsim4 & Hmem4).
  destruct (store_dependents_sim acosh a _ m0 g _ _ _ _ Hsim4 Hmem4
              Hdsmall Hdlen Hdep)
    as (m5 & stored & Hsim5 & Hstored & Hout).
  destruct Hsim5 as [Hsealed Hopen Hlabel Hexec Hregs _ Hgraph].
  injection Hret as <-.
  exists (cur_insts s5), m5, table, stored.
  split; [| done].
  unfold blocks_of. cbn. by rewrite Hsealed, Hlabel, app_nil_r.
Qed.

End Success.

(** ** [from_graph] on its success path *)

Section FromGraphSuccess.
Variable acosh : double -> double.
Variable NDEBUG : bool.
Variable op_enum2name : graph_op_enum -> string.
Variable verifyFunction : Function -> bool.

Local Abbreviation from_graph' :=
  (from_graph NDEBUG op_enum2name verifyFunction).
Local Abbreviation msg0 := "llvm_ir::from_graph: ".

Lemma unsupported_operator_nonempty op :
  unsupported_operator op_enum2name msg0 op <> "".
Proof. done. Qed.

Lemma vec_size_zero {A} (v : list A) : (vec_size v =? 0)%N = true <-> v = [].
Proof.
  unfold vec_size. rewrite N.eqb_eq. destruct v; cbn; [done |].
  split; [lia | done].
Qed.

(** The empty message means that every check was passed and that the
    function was built up to its final [ret]. *)
Lemma from_graph_success_inv ir_obj g ir_obj' :
  from_graph' ir_obj g = Some ("", ir_obj') ->
  exists s,
    merge_body NDEBUG op_enum2name msg0 g (merge_state g) = Next tt s /\
    discrete_name_vec g = [] /\ atomic_name_vec g = [] /\
    print_text_vec g = [] /\ function_name g <> "" /\
    verifyFunction
      {| fn_name := function_name g; fn_blocks := blocks_of s |} = false /\
    ir_obj' =
      {| n_dynamic_ind_ := n_dynamic_ind g;
         n_variable_ind_ := n_variable_ind g;
         n_variable_dep_ := dependent_vec_size g;
         function_name_ := function_name g;
         module_ir_ := Some (module_of (function_name g) s) |}.
Proof.
  unfold from_graph. rewrite build_function_merge.
  destruct (discrete_name_vec_size g =? 0)%N eqn:Hd; [| done].
  destruct (atomic_name_vec_size g =? 0)%N eqn:Ha; [| done].
  destruct (print_text_vec_size g =? 0)%N eqn:Hp; [| done].
  cbn [negb]. unfold function_name_get.
  case_bool_decide as Hname; [done |].
  destruct (merge_body _ _ _ g (merge_state g)) as [[] s | msg' s |]
    eqn:Hbody; [| | done].
  - destruct (verifyFunction _) eqn:Hv; [done |].
    intros [= <-]. exists s.
    apply vec_size_zero in Hd, Ha, Hp. done.
  - intros [= -> _].
    apply merge_body_Return in Hbody as (v & _ & _ & Hmsg).
    symmetry in Hmsg. by apply unsupported_operator_nonempty in Hmsg.
Qed.

Lemma function_ir_module name s n1 n2 n3 :
  function_ir {| n_dynamic_ind_ := n1; n_variable_ind_ := n2;
                 n_variable_dep_ := n3; function_name_ := name;
                 module_ir_ := Some (module_of name s) |}
  = Some {| fn_name := name; fn_blocks := blocks_of s |}.
Proof.
  unfold function_ir. cbn. by rewrite bool_decide_eq_true_2.
Qed.

Lemma length_error_false g lin lout :
  int32_range lin -> int32_range lout ->
  lin = (Z.of_N (n_dynamic_ind g) + Z.of_N (n_variable_ind g))%Z ->
  lout = Z.of_nat (length (dependent_vec g)) ->
  length_error g {| arg_len_input := lin; arg_len_output := lout |}
  = false.
Proof.
  unfold int32_range, length_error, to_bits, APInt, size_t_add,
    dependent_vec_size, vec_size.
  intros Hi Ho -> ->. cbn [arg_len_input arg_len_output].
  change (2 ^ Z.of_N 32)%Z with (2 ^ 32)%Z.
  rewrite N.mod_small.
  2:{ unfold size_t_modulus. lia. }
  rewrite N2Z.inj_add, nat_N_Z.
  by rewrite !Z.eqb_refl.
Qed.

(** The run of a successfully lowered graph on a call within the
    contract: the function, the machine at its [ret], the table, and
    what the stores wrote. *)
Lemma lowered_run ir_obj g ir_obj' lin input lout output :
  from_graph' ir_obj g = Some ("", ir_obj') ->
  call_ok lin input lout output ->
  lin = (Z.of_N (n_dynamic_ind g) + Z.of_N (n_variable_ind g))%Z ->
  lout = Z.of_nat (length (dependent_vec g)) ->
  let a := {| arg_len_input := lin; arg_len_output := lout |} in
  exists fn gi m table stored,
    function_ir ir_obj' = Some fn /\
    lowered_graph_ir NDEBUG op_enum2name g = Some gi /\
    run acosh fn lin input lout output = Some (RInt 32 0, m) /\
    value_table acosh g input = Some table /\
    Forall2 (slot_holds a (regs m)) gi table /\
    stored_ok table (dependent_vec g) stored /\
    mem_out (mem m)
    = (stored ++ drop (length (dependent_vec g)) output)%list.
Proof.
  intros Hfg [Hri Hro Hli Hlo] Hlin Hlout a.
  apply from_graph_success_inv in Hfg
    as (s & Hbody & _ & _ & _ & _ & _ & ->).
  pose proof (length_error_false g lin lout Hri Hro Hlin Hlout) as Hle.
  fold a in Hle.
  unfold int32_range in Hri, Hro.
  destruct (merge_body_sim acosh NDEBUG op_enum2name msg0 g a input
              output s)
    as (insts & m & table & stored & Hblocks & Hexec & Hregs & Htable
        & Hgraph & Hstored & Hout); try done.
  { lia. }
  { lia. }
  { unfold dependent_vec_size, vec_size. lia. }
  { lia. }
  exists {| fn_name := function_name g; fn_blocks := blocks_of s |},
    (graph_ir s), m, table, stored.
  split; [apply function_ir_module |]. split.
  { unfold lowered_graph_ir. by rewrite build_function_merge, Hbody. }
  split; [| done].
  rewrite Hblocks, run_three_blocks. cbv zeta. fold a.
  rewrite Hle, Hexec. cbn.
  assert (regs m !! 3 = Some (RInt 32 0)) as ->; [| done].
  eapply lookup_weaken; [| exact Hregs].
  unfold entry_machine. cbn [regs]. rewrite lookup_insert_eq.
  by rewrite Hle.
Qed.

End FromGraphSuccess.

(** ** The shape of the function that is built *)

Lemma extends_refl s : extends s s.
Proof.
  split; try done. exists []. by rewrite app_nil_r.
Qed.

Lemma extends_trans s1 s2 s3 : extends s1 s2 -> extends s2 s3 -> extends s1 s3.
Proof.
  intros [Hs1 Ho1 Hl1 Hn1 (new1 & Hi1 & Hf1)]
         [Hs2 Ho2 Hl2 Hn2 (new2 & Hi2 & Hf2)].
  split; try congruence; [lia |].
  exists (new1 ++ new2)%list. split.
  - by rewrite Hi2, Hi1, app_assoc.
  - apply Forall_app. split; [done |].
    eapply Forall_impl; [exact Hf2 |]. intros ii Hii. cbn in *. lia.
Qed.

Lemma extending_ret {A} (x : A) : extending (ret x).
Proof. intros s y s'. unfold ret. intros [= _ <-]. apply extends_refl. Qed.

Lemma extending_undefined {A} : extending (@undefined A).
Proof. by intros s y s'. Qed.

Lemma extending_return_msg {A} msg : extending (@return_msg A msg).
Proof. by intros s y s'. Qed.

Lemma extending_bind {A B} (c : lowering A) (k : A -> lowering B) :
  extending c -> (forall x, extending (k x)) -> extending (bind c k).
Proof.
  intros Hc Hk s y s' H. apply bind_Next in H as (x & s1 & H1 & H2).
  eapply extends_trans; [by eapply Hc | by eapply Hk].
Qed.

Lemma extending_vec_get {A} (v : list A) i : extending (vec_get v i).
Proof.
  intros s y s'. unfold vec_get. destruct (v !! N.to_nat i); [| done].
  intros [= _ <-]. apply extends_refl.
Qed.

Lemma extending_graph_ir_get i : extending (graph_ir_get i).
Proof. intros s y s'. unfold graph_ir_get. apply extending_vec_get. Qed.

Lemma extending_push_back v : extending (graph_ir_push_back v).
Proof.
  intros s y s' [= _ <-]. split; cbn; try done.
  exists []. by rewrite app_nil_r.
Qed.

Lemma extending_Insert i : extending (Insert i).
Proof.
  intros s y s' H. apply Insert_Next in H as (_ & _ & ->).
  split; cbn; try done; [lia |].
  exists [(next_id s, i)]. split; [done |]. by repeat constructor.
Qed.

Lemma extending_assert nd b : extending (CPPAD_ASSERT_UNKNOWN nd b).
Proof.
  intros s y s' H. apply CPPAD_ASSERT_UNKNOWN_Next in H as ->.
  apply extends_refl.
Qed.

Lemma extending_for_loop body count :
  (forall i, extending (body i)) ->
  forall first, extending (for_loop count first body).
Proof.
  intros Hbody. induction count as [| count IH]; intros first.
  - apply extending_ret.
  - cbn [for_loop]. apply extending_bind; [apply Hbody |].
    intros _. apply IH.
Qed.

#[export] Hint Resolve extending_ret extending_undefined
  extending_return_msg extending_vec_get extending_graph_ir_get
  extending_push_back extending_Insert extending_assert : lowering.

#[export] Hint Resolve extending_bind extending_for_loop : lowering.

Section Shape.
Variable NDEBUG : bool.
Variable op_enum2name : graph_op_enum -> string.




End Shape.

(** ** Graphs on which the construction has no fault *)

Lemma bind_Next_eq {A B} (c : lowering A) (k : A -> lowering B) s x s1 :
  c s = Next x s1 -> bind c k s = k x s1.
Proof. intros H. unfold bind. by rewrite H. Qed.

Lemma for_loop_app body k r :
  forall first s,
    for_loop (k + r) first body s
    = bind (for_loop k first body)
        (fun _ => for_loop r (first + N.of_nat k)%N body) s.
Proof.
  induction k as [| k IH]; intros first s.
  - cbn. by rewrite N.add_0_r.
  - cbn [for_loop Nat.add]. unfold bind.
    destruct (body first s) as [[] s1 | msg s1 |]; [| done | done].
    rewrite IH. unfold bind.
    by replace (N.succ first + N.of_nat k)%N
      with (first + N.of_nat (S k))%N by lia.
Qed.

Lemma filled_same n s s' :
  graph_ir s' = graph_ir s -> filled n s -> filled n s'.
Proof. intros H [Hl Hn]. unfold filled. by rewrite H. Qed.

Lemma filled_push n s s' v :
  graph_ir s' = (graph_ir s ++ [v])%list -> is_null v = false ->
  filled n s -> filled (S n) s'.
Proof.
  intros H Hv [Hl Hn]. unfold filled. rewrite H. split.
  - rewrite length_app. cbn. lia.
  - intros j x Hj Hx. apply lookup_app_Some in Hx as [Hx | [_ Hx]].
    + by eapply Hn.
    + destruct (j - length (graph_ir s)); cbn in Hx; [| done].
      by injection Hx as <-.
Qed.

Lemma filled_lookup n s node :
  filled n s -> 1 <= N.to_nat node < n ->
  exists v, graph_ir s !! N.to_nat node = Some v /\ is_null v = false.
Proof.
  intros [Hl Hn] [H1 H2].
  destruct (lookup_lt_is_Some_2 (graph_ir s) (N.to_nat node)) as [v Hv];
    [lia |].
  exists v. split; [done |]. by eapply Hn.
Qed.

Lemma Insert_progress i s :
  existsb is_null (operands i) = false ->
  exists s', Insert i s = Next (Inst (next_id s)) s' /\
             graph_ir s' = graph_ir s.
Proof. intros H. unfold Insert. rewrite H. by eexists. Qed.

Lemma graph_ir_get_progress n s node :
  filled n s -> node_ok n node = true ->
  exists v, graph_ir_get node s = Next v s /\ is_null v = false.
Proof.
  intros Hf Hok. unfold node_ok in Hok. apply bool_decide_eq_true in Hok.
  destruct (filled_lookup n s node Hf Hok) as (v & Hv & Hnn).
  exists v. split; [| done]. unfold graph_ir_get, vec_get. by rewrite Hv.
Qed.

Lemma graph_ir_arg_progress n s arg k node :
  filled n s -> arg !! k = Some node -> node_ok n node = true ->
  exists v, graph_ir_arg arg (N.of_nat k) s = Next v s /\ is_null v = false.
Proof.
  intros Hf Harg Hok.
  destruct (graph_ir_get_progress n s node Hf Hok) as (v & Hv & Hnn).
  exists v. split; [| done].
  unfold graph_ir_arg. erewrite bind_Next_eq; [exact Hv |].
  unfold vec_get. by rewrite Nat2N.id, Harg.
Qed.

Section Progress.
Variable NDEBUG : bool.
Variable op_enum2name : graph_op_enum -> string.

Lemma load_input_progress idx n s :
  filled n s ->
  exists s', load_input idx s = Next tt s' /\ filled (S n) s'.
Proof.
  intros Hf. unfold load_input, CreateGEP, CreateLoad.
  destruct (Insert_progress
              (GEP (Argument input_ptr)
                 (ConstantInt 32 (APInt 32 idx false))) s)
    as (s1 & H1 & Hg1); [done |].
  destruct (Insert_progress (Load (Inst (next_id s))) s1)
    as (s2 & H2 & Hg2); [done |].
  eexists. split.
  - erewrite bind_Next_eq by exact H1.
    erewrite bind_Next_eq by exact H2. reflexivity.
  - eapply filled_push; [| | exact Hf];
      [cbn; rewrite Hg2, Hg1; reflexivity | done].
Qed.

Lemma load_loop_progress (f : N -> N) count n s :
  filled n s ->
  exists s', for_size_t count (fun i => load_input (f i)) s = Next tt s' /\
             filled (n + N.to_nat count) s'.
Proof.
  intros Hf. unfold for_size_t.
  destruct (for_loop_progress
              (fun i s1 => filled (n + N.to_nat i) s1)
              (fun i => load_input (f i)) (N.to_nat count) 0%N s)
    as (s' & Hrun & HP).
  - intros i s1 _ Hf1.
    destruct (load_input_progress (f i) _ s1 Hf1) as (s2 & H2 & Hf2).
    exists s2. split; [done |].
    by replace (n + N.to_nat (N.succ i)) with (S (n + N.to_nat i)) by lia.
  - by rewrite Nat.add_0_r.
  - exists s'. split; [done |].
    by rewrite N.add_0_l, N2Nat.id in HP.
Qed.

Lemma lower_constants_progress g n s :
  filled n s ->
  exists s', lower_constants g s = Next tt s' /\
             filled (n + length (constant_vec g)) s'.
Proof.
  intros Hf. unfold lower_constants, for_size_t.
  destruct (for_loop_progress
              (fun i s1 => filled (n + N.to_nat i) s1)
              (fun i => c_i <- vec_get (constant_vec g) i ;;
                        graph_ir_push_back (ConstantFP c_i))
              (N.to_nat (constant_vec_size g)) 0%N s)
    as (s' & Hrun & HP).
  - intros i s1 Hi Hf1.
    unfold constant_vec_size, vec_size in Hi.
    destruct (lookup_lt_is_Some_2 (constant_vec g) (N.to_nat i))
      as [c Hc]; [lia |].
    eexists. split.
    + unfold bind, vec_get. rewrite Hc. reflexivity.
    + replace (n + N.to_nat (N.succ i)) with (S (n + N.to_nat i)) by lia.
      eapply filled_push; [| | exact Hf1]; done.
  - by rewrite Nat.add_0_r.
  - exists s'. split; [done |].
    unfold constant_vec_size, vec_size in HP.
    by rewrite N.add_0_l, !Nat2N.id in HP.
Qed.

Lemma debug_switch_progress msg v n s :
  operator_ok n v = true ->
  debug_switch op_enum2name msg v s = Next tt s.
Proof.
  unfold operator_ok, debug_switch, vec_size.
  intros H. apply andb_prop in H as [H Hstr].
  apply andb_prop in H as [H Hres]. apply andb_prop in H as [Har _].
  apply bool_decide_eq_true in Hstr. rewrite Hstr, Hres.
  destruct (op_enum v); try done;
    apply bool_decide_eq_true in Har; by rewrite Har.
Qed.

Lemma unary_progress (mk : value -> instruction) v n s :
  (forall x, operands (mk x) = [x]) ->
  filled n s -> length (arg_node v) = 1 ->
  forallb (node_ok n) (arg_node v) = true ->
  exists s',
    (x <- graph_ir_arg (arg_node v) 0 ;;
     value <- Insert (mk x) ;;
     graph_ir_push_back value) s = Next tt s' /\
    filled (S n) s'.
Proof.
  intros Hops Hf Hlen Hall.
  destruct (arg_node v) as [| n0 [| ? ?]] eqn:Harg; try done.
  cbn in Hall. apply andb_prop in Hall as [Hok0 _].
  destruct (graph_ir_arg_progress n s [n0] 0 n0 Hf eq_refl Hok0)
    as (x & Hx & Hnx).
  destruct (Insert_progress (mk x) s) as (s1 & H1 & Hg1).
  { rewrite Hops. cbn. by rewrite Hnx. }
  eexists. split.
  - erewrite bind_Next_eq by exact Hx.
    erewrite bind_Next_eq by exact H1. reflexivity.
  - eapply filled_push; [| | exact Hf];
      [cbn; rewrite Hg1; reflexivity | done].
Qed.

Lemma binary_progress (mk : value -> value -> instruction) v n s :
  (forall x y, operands (mk x y) = [x; y]) ->
  filled n s -> length (arg_node v) = 2 ->
  forallb (node_ok n) (arg_node v) = true ->
  exists s',
    (l <- graph_ir_arg (arg_node v) 0 ;;
     r <- graph_ir_arg (arg_node v) 1 ;;
     value <- Insert (mk l r) ;;
     graph_ir_push_back value) s = Next tt s' /\
    filled (S n) s'.
Proof.
  intros Hops Hf Hlen Hall.
  destruct (arg_node v) as [| n0 [| n1 [| ? ?]]] eqn:Harg; try done.
  cbn in Hall. apply andb_prop in Hall as [Hok0 Hall].
  apply andb_prop in Hall as [Hok1 _].
  destruct (graph_ir_arg_progress n s [n0; n1] 0 n0 Hf eq_refl Hok0)
    as (l & Hl & Hnl).
  destruct (graph_ir_arg_progress n s [n0; n1] 1 n1 Hf eq_refl Hok1)
    as (r & Hr & Hnr).
  destruct (Insert_progress (mk l r) s) as (s1 & H1 & Hg1).
  { rewrite Hops. cbn. by rewrite Hnl, Hnr. }
  eexists. split.
  - erewrite bind_Next_eq by exact Hl.
    erewrite bind_Next_eq by exact Hr.
    erewrite bind_Next_eq by exact H1. reflexivity.
  - eapply filled_push; [| | exact Hf];
      [cbn; rewrite Hg1; reflexivity | done].
Qed.

Lemma azmul_progress v n s :
  let fp_zero := ConstantFP pos_zero in
  filled n s -> length (arg_node v) = 2 ->
  forallb (node_ok n) (arg_node v) = true ->
  exists s',
    (l <- graph_ir_arg (arg_node v) 0 ;;
     r <- graph_ir_arg (arg_node v) 1 ;;
     value <- CreateFMul l r ;;
     l' <- graph_ir_arg (arg_node v) 0 ;;
     is_zero <- CreateFCmpOEQ l' fp_zero ;;
     value <- CreateSelect is_zero fp_zero value ;;
     graph_ir_push_back value) s = Next tt s' /\
    filled (S n) s'.
Proof.
  intros fp_zero Hf Hlen Hall.
  destruct (arg_node v) as [| n0 [| n1 [| ? ?]]] eqn:Harg; try done.
  cbn in Hall. apply andb_prop in Hall as [Hok0 Hall].
  apply andb_prop in Hall as [Hok1 _].
  destruct (graph_ir_arg_progress n s [n0; n1] 0 n0 Hf eq_refl Hok0)
    as (l & Hl & Hnl).
  destruct (graph_ir_arg_progress n s [n0; n1] 1 n1 Hf eq_refl Hok1)
    as (r & Hr & Hnr).
  destruct (Insert_progress (FMul l r) s) as (s1 & H1 & Hg1).
  { cbn. by rewrite Hnl, Hnr. }
  assert (filled n s1) as Hf1 by (by eapply filled_same).
  destruct (graph_ir_arg_progress n s1 [n0; n1] 0 n0 Hf1 eq_refl Hok0)
    as (l' & Hl' & Hnl').
  destruct (Insert_progress (FCmpOEQ l' fp_zero) s1) as (s2 & H2 & Hg2).
  { cbn. by rewrite Hnl'. }
  destruct (Insert_progress
              (Select (Inst (next_id s1)) fp_zero (Inst (next_id s))) s2)
    as (s3 & H3 & Hg3); [done |].
  eexists. split.
  - erewrite bind_Next_eq by exact Hl.
    erewrite bind_Next_eq by exact Hr.
    erewrite bind_Next_eq by exact H1.
    erewrite bind_Next_eq by exact Hl'.
    erewrite bind_Next_eq by exact H2.
    erewrite bind_Next_eq by exact H3. reflexivity.
  - eapply filled_push; [| | exact Hf];
      [cbn; rewrite Hg3, Hg2, Hg1; reflexivity | done].
Qed.

Lemma lower_operator_progress msg v n s :
  filled n s -> operator_ok n v = true ->
  exists s',
    lower_operator NDEBUG op_enum2name msg (ConstantFP pos_zero) v s
      = Next tt s' /\
    filled (S n) s'.
Proof.
  intros Hf Hok. unfold lower_operator.
  assert ((if NDEBUG then ret tt else debug_switch op_enum2name msg v) s
          = Next tt s) as Hdebug.
  { destruct NDEBUG; [done |]. by eapply debug_switch_progress. }
  rewrite (bind_Next_eq _ _ _ _ _ Hdebug).
  unfold operator_ok in Hok.
  apply andb_prop in Hok as [Hok _]. apply andb_prop in Hok as [Hok _].
  apply andb_prop in Hok as [Harity Hall].
  destruct (op_enum v); try done; apply bool_decide_eq_true in Harity.
  - by apply (unary_progress (Call "acosh")).
  - by apply (binary_progress FAdd).
  - by apply azmul_progress.
  - by apply (binary_progress FDiv).
  - by apply (binary_progress FMul).
  - by apply (unary_progress FNeg).
  - by apply (binary_progress FSub).
Qed.

Lemma operators_ok_lookup ops :
  forall n i v,
    operators_ok n ops = true -> ops !! i = Some v ->
    operator_ok (n + i) v = true.
Proof.
  induction ops as [| w ops IH]; intros n i v Hok Hv; [done |].
  cbn in Hok. apply andb_prop in Hok as [Hw Hok].
  destruct i as [| i]; cbn in Hv.
  - injection Hv as <-. by rewrite Nat.add_0_r.
  - replace (n + S i) with (S n + i) by lia. by eapply IH.
Qed.

Lemma operators_ok_app ops1 :
  forall n ops2,
    operators_ok n (ops1 ++ ops2)
    = operators_ok n ops1 && operators_ok (n + length ops1) ops2.
Proof.
  induction ops1 as [| w ops1 IH]; intros n ops2; cbn.
  - by rewrite Nat.add_0_r.
  - rewrite IH, andb_assoc. do 2 f_equal. lia.
Qed.

Local Abbreviation operator_loop msg ops :=
  (fun iop : N =>
     itr_value <- vec_get ops iop ;;
     lower_operator NDEBUG op_enum2name msg (ConstantFP pos_zero)
       itr_value).

(** The first [k] passes of the loop over the operators. *)
Lemma operators_prefix_progress msg (ops : list itr_value) k n s :
  filled n s -> operators_ok n (take k ops) = true -> k <= length ops ->
  exists s', for_loop k 0%N (operator_loop msg ops) s = Next tt s' /\
             filled (n + k) s'.
Proof.
  intros Hf Hok Hk.
  destruct (for_loop_progress
              (fun i s1 => filled (n + N.to_nat i) s1)
              (operator_loop msg ops) k 0%N s)
    as (s' & Hrun & HP).
  - intros i s1 Hi Hf1.
    destruct (lookup_lt_is_Some_2 ops (N.to_nat i)) as [v Hv]; [lia |].
    assert (operator_ok (n + N.to_nat i) v = true) as Hv_ok.
    { eapply operators_ok_lookup; [exact Hok |].
      rewrite lookup_take_lt by lia. exact Hv. }
    destruct (lower_operator_progress msg v _ s1 Hf1 Hv_ok)
      as (s2 & H2 & Hf2).
    exists s2. split.
    + unfold bind, vec_get. by rewrite Hv.
    + by replace (n + N.to_nat (N.succ i)) with (S (n + N.to_nat i))
        by lia.
  - by rewrite Nat.add_0_r.
  - exists s'. split; [done |].
    by rewrite N.add_0_l, Nat2N.id in HP.
Qed.


Lemma lower_operator_unsupported msg fp_zero v s :
  supported (op_enum v) = false ->
  lower_operator NDEBUG op_enum2name msg fp_zero v s
  = Return (unsupported_operator op_enum2name msg (op_enum v)) s.
Proof.
  unfold lower_operator, debug_switch.
  destruct (op_enum v); try done. intros _. by destruct NDEBUG.
Qed.

(** The loop leaves [from_graph] at the first operator outside the
    seven. *)
Lemma lower_operators_stop msg g pre v post n s :
  operator_vec g = (pre ++ v :: post)%list ->
  operators_ok n pre = true -> supported (op_enum v) = false ->
  filled n s ->
  exists s',
    lower_operators NDEBUG op_enum2name msg g s
    = Return (unsupported_operator op_enum2name msg (op_enum v)) s'.
Proof.
  intros Hops Hok Hv Hf.
  unfold lower_operators, for_size_t, operator_vec_size, vec_size.
  rewrite Nat2N.id, Hops, length_app. cbn [length].
  rewrite for_loop_app.
  destruct (operators_prefix_progress msg (pre ++ v :: post) (length pre)
              n s Hf) as (s1 & H1 & _).
  { by rewrite take_app_length. }
  { rewrite length_app. lia. }
  rewrite (bind_Next_eq _ _ _ _ _ H1). cbn [for_loop].
  exists s1. unfold bind, vec_get.
  rewrite N.add_0_l, Nat2N.id, list_lookup_middle by done.
  by rewrite lower_operator_unsupported.
Qed.


Lemma filled_merge_state g : filled 1 (merge_state g).
Proof.
  split; [done |]. intros j v Hj Hv. cbn in Hv.
  destruct j as [| j]; [lia | done].
Qed.

(** The loops before the operators fill the slots of the independents
    and constants. *)
Lemma independents_progress g :
  exists s3,
    (lower_dynamic g ;;; lower_variable g ;;; lower_constants g)
      (merge_state g) = Next tt s3 /\
    filled (first_operator_node g) s3.
Proof.
  destruct (load_loop_progress (fun i => i) (n_dynamic_ind_get g) 1
              (merge_state g) (filled_merge_state g))
    as (s1 & H1 & Hf1).
  destruct (load_loop_progress
              (fun i => size_t_add (n_dynamic_ind_get g) i)
              (n_variable_ind_get g) _ s1 Hf1) as (s2 & H2 & Hf2).
  destruct (lower_constants_progress g _ s2 Hf2) as (s3 & H3 & Hf3).
  exists s3. split; [| exact Hf3].
  unfold lower_dynamic, lower_variable.
  rewrite (bind_Next_eq _ _ _ _ _ H1).
  by rewrite (bind_Next_eq _ _ _ _ _ H2).
Qed.


(** A graph whose first faulty operator is one outside the seven makes
    the construction return the message that names it. *)
Lemma merge_body_stop msg g pre v post :
  operator_vec g = (pre ++ v :: post)%list ->
  operators_ok (first_operator_node g) pre = true ->
  supported (op_enum v) = false ->
  exists s,
    merge_body NDEBUG op_enum2name msg g (merge_state g)
    = Return (unsupported_operator op_enum2name msg (op_enum v)) s.
Proof.
  intros Hops Hpre Hv.
  destruct (independents_progress g) as (s3 & H3 & Hf3).
  apply bind_Next in H3 as ([] & s1 & H1 & H3).
  apply bind_Next in H3 as ([] & s2 & H2 & H3).
  destruct (lower_operators_stop msg g pre v post _ s3 Hops Hpre Hv Hf3)
    as (s4 & H4).
  exists s4. unfold merge_body.
  rewrite (bind_Next_eq _ _ _ _ _ H1), (bind_Next_eq _ _ _ _ _ H2),
    (bind_Next_eq _ _ _ _ _ H3).
  unfold bind. by rewrite H4.
Qed.

End Progress.

(** ** Calls of a lowered graph *)

Section Calls.
Variable acosh : double -> double.
Variable NDEBUG : bool.
Variable op_enum2name : graph_op_enum -> string.
Variable verifyFunction : Function -> bool.

Local Abbreviation from_graph' :=
  (from_graph NDEBUG op_enum2name verifyFunction).
Local Abbreviation msg0 := "llvm_ir::from_graph: ".



End Calls.

(** ** The values of the nodes in a run *)

Section Nodes.
Variable acosh : double -> double.
Variable NDEBUG : bool.
Variable op_enum2name : graph_op_enum -> string.
Variable verifyFunction : Function -> bool.

Local Abbreviation from_graph' :=
  (from_graph NDEBUG op_enum2name verifyFunction).

Lemma eval_nodes_extends ops :
  forall t0 t,
    eval_nodes acosh ops t0 = Some t ->
    exists rest, t = (t0 ++ rest)%list /\ length rest = length ops.
Proof.
  induction ops as [| v ops IH]; intros t0 t H; cbn in H.
  - injection H as <-. exists []. by rewrite app_nil_r.
  - destruct (eval_node acosh t0 v) as [d |]; [| done]. cbn in H.
    destruct (IH _ _ H) as (rest & -> & Hlen).
    exists (Some d :: rest). split; [by rewrite <- app_assoc |].
    cbn. lia.
Qed.

(** The slot of the operator at position [k] holds what [eval_node]
    computes from the slots before it. *)
Lemma eval_nodes_lookup ops :
  forall t0 t k v,
    eval_nodes acosh ops t0 = Some t -> ops !! k = Some v ->
    exists d, eval_node acosh (take (length t0 + k) t) v = Some d /\
              t !! (length t0 + k) = Some (Some d).
Proof.
  induction ops as [| w ops IH]; intros t0 t k v H Hv; [done |].
  cbn in H. destruct (eval_node acosh t0 w) as [d |] eqn:Hd; [| done].
  cbn in H. destruct k as [| k]; cbn in Hv.
  - injection Hv as <-.
    destruct (eval_nodes_extends _ _ _ H) as (rest & -> & _).
    exists d. rewrite Nat.add_0_r, <- app_assoc. cbn [app]. split.
    + by rewrite take_app_length.
    + by rewrite list_lookup_middle.
  - destruct (IH _ _ k v H Hv) as (d' & Hd' & Ht).
    rewrite length_app in Hd', Ht. cbn in Hd', Ht.
    replace (length t0 + S k) with (length t0 + 1 + k) by lia.
    by exists d'.
Qed.

Lemma table_get_take n (t : list slot) node x :
  table_get (take n t) node = Some x -> table_get t node = Some x.
Proof.
  unfold table_get. intros H.
  destruct (take n t !! N.to_nat node) as [sl |] eqn:Hsl; [| done].
  cbn in H. subst sl. apply lookup_take_Some in Hsl as [Hsl _].
  by apply table_get_Some.
Qed.

Lemma arg_value_take n (t : list slot) v j x :
  arg_value (take n t) v j = Some x -> arg_value t v j = Some x.
Proof.
  unfold arg_value. destruct (arg_node v !! j) as [node |]; [| done].
  cbn. apply table_get_take.
Qed.

Lemma arg_value_inv (t : list slot) v j x :
  arg_value t v j = Some x ->
  exists node, arg_node v !! j = Some node /\ table_get t node = Some x.
Proof.
  unfold arg_value. destruct (arg_node v !! j) as [node |]; [| done].
  cbn. intros H. by exists node.
Qed.

Lemma initial_table_length g (input : list double) :
  N.to_nat (n_dynamic_ind g + n_variable_ind g) <= length input ->
  length (independent_slots g input ++ (Some <$> constant_vec g))
  = first_operator_node g.
Proof.
  intros H. unfold independent_slots, first_operator_node.
  rewrite !length_app, !length_fmap, !length_take, length_drop.
  cbn [length]. lia.
Qed.

Lemma node_value_table a gi rs (table : list slot) node x :
  Forall2 (slot_holds a rs) gi table ->
  table_get table node = Some x ->
  node_value a gi rs node = Some x.
Proof.
  intros Hall Hget. unfold table_get in Hget.
  destruct (table !! N.to_nat node) as [sl |] eqn:Hsl; [| done].
  cbn in Hget. subst sl.
  destruct (Forall2_lookup_r _ _ _ _ _ Hall Hsl) as (v & Hv & Hholds).
  unfold node_value. rewrite Hv. cbn in *. by rewrite Hholds.
Qed.

(** In the run of a lowered graph every node has the value the table
    gives it. *)
Lemma run_node_value_table ir_obj g ir_obj' lin input lout output :
  from_graph' ir_obj g = Some ("", ir_obj') ->
  call_ok lin input lout output ->
  lin = (Z.of_N (n_dynamic_ind g) + Z.of_N (n_variable_ind g))%Z ->
  lout = Z.of_nat (length (dependent_vec g)) ->
  exists table,
    value_table acosh g input = Some table /\
    forall node x,
      table_get table node = Some x ->
      run_node_value acosh NDEBUG op_enum2name ir_obj' g
        lin input lout output node = Some x.
Proof.
  intros Hfg Hcall Hlin Hlout.
  destruct (lowered_run acosh NDEBUG op_enum2name verifyFunction
              _ _ _ _ _ _ _ Hfg Hcall Hlin Hlout)
    as (fn & gi & m & table & stored & Hfn & Hgi & Hrun & Htable
        & Hgraph & _).
  exists table. split; [done |]. intros node x Hx.
  unfold run_node_value. rewrite Hfn. cbn [mbind option_bind].
  rewrite Hgi. cbn [mbind option_bind]. rewrite Hrun. cbn.
  by eapply node_value_table.
Qed.

(** The node of an [azmul] operator and the nodes of its two
    arguments. *)
Lemma azmul_node_run ir_obj g ir_obj' lin input lout output k v :
  from_graph' ir_obj g = Some ("", ir_obj') ->
  call_ok lin input lout output ->
  lin = (Z.of_N (n_dynamic_ind g) + Z.of_N (n_variable_ind g))%Z ->
  lout = Z.of_nat (length (dependent_vec g)) ->
  operator_vec g !! k = Some v -> op_enum v = azmul_graph_op ->
  let value_of :=
    run_node_value acosh NDEBUG op_enum2name ir_obj' g
      lin input lout output in
  exists n0 n1 x y,
    arg_node v !! 0 = Some n0 /\ arg_node v !! 1 = Some n1 /\
    value_of n0 = Some x /\ value_of n1 = Some y /\
    value_of (operator_node g k) = Some (azmul x y).
Proof.
  intros Hfg Hcall Hlin Hlout Hv Hop value_of.
  destruct (run_node_value_table _ _ _ _ _ _ _ Hfg Hcall Hlin Hlout)
    as (table & Htable & Hnodes).
  unfold value_table in Htable.
  destruct (eval_nodes_lookup _ _ _ _ _ Htable Hv) as (d & Hd & Hslot).
  assert (N.to_nat (n_dynamic_ind g + n_variable_ind g) <= length input)
    as Hlen.
  { destruct Hcall as [Hri _ Hli _]. unfold int32_range in Hri. lia. }
  rewrite (initial_table_length g input Hlen) in Hd, Hslot.
  unfold eval_node in Hd. rewrite Hop in Hd. unfold binary in Hd.
  destruct (arg_value _ v 0) as [x |] eqn:Hx; [| done].
  destruct (arg_value _ v 1) as [y |] eqn:Hy; [| done].
  injection Hd as <-.
  apply arg_value_take, arg_value_inv in Hx as (n0 & Hn0 & Hx).
  apply arg_value_take, arg_value_inv in Hy as (n1 & Hn1 & Hy).
  exists n0, n1, x, y.
  split; [done |]. split; [done |].
  split; [by apply Hnodes |]. split; [by apply Hnodes |].
  apply Hnodes, table_get_Some.
  unfold operator_node. by rewrite Nat2N.id.
Qed.

End Nodes.

(** ** Every way [from_graph] can end *)

Section Results.
Variable NDEBUG : bool.
Variable op_enum2name : graph_op_enum -> string.
Variable verifyFunction : Function -> bool.

Import SpecValidation.

Local Abbreviation from_graph' :=
  (from_graph NDEBUG op_enum2name verifyFunction).
Local Abbreviation msg0 := "llvm_ir::from_graph: ".

Lemma vec_size_cons {A} (x : A) (v : list A) :
  (vec_size (x :: v) =? 0)%N = false.
Proof. unfold vec_size. apply N.eqb_neq. cbn. lia. Qed.

(** A graph that fails one of the first four checks. *)
Lemma from_graph_rejected ir_obj g e :
  validate g = Some e ->
  from_graph' ir_obj g
  = Some (message_of e,
          match e with
          | MissingName => with_scalars ir_obj g
          | UnsupportedFeature _ => ir_obj
          end).
Proof.
  unfold validate, from_graph, discrete_name_vec_size,
    atomic_name_vec_size, print_text_vec_size, function_name_get.
  destruct (discrete_name_vec g) as [| ? ?].
  2:{ intros [= <-]. by rewrite vec_size_cons. }
  destruct (atomic_name_vec g) as [| ? ?].
  2:{ intros [= <-]. by rewrite vec_size_cons. }
  destruct (print_text_vec g) as [| ? ?].
  2:{ intros [= <-]. by rewrite vec_size_cons. }
  cbn [vec_size length N.of_nat N.eqb negb].
  case_bool_decide; [| done]. by intros [= <-].
Qed.

(** A graph that passes them. *)
Lemma from_graph_checked ir_obj g :
  validate g = None ->
  from_graph' ir_obj g
  = match merge_body NDEBUG op_enum2name msg0 g (merge_state g) with
    | Undefined => None
    | Return msg s => Some (msg, with_function g s)
    | Next _ s =>
        if verifyFunction
             {| fn_name := function_name g; fn_blocks := blocks_of s |}
        then Some (verification_message, with_function g s)
        else Some ("", with_function g s)
    end.
Proof.
  unfold validate, from_graph, discrete_name_vec_size,
    atomic_name_vec_size, print_text_vec_size, function_name_get.
  rewrite build_function_merge.
  destruct (discrete_name_vec g) as [| ? ?]; [| done].
  destruct (atomic_name_vec g) as [| ? ?]; [| done].
  destruct (print_text_vec g) as [| ? ?]; [| done].
  cbn [vec_size length N.of_nat N.eqb negb].
  case_bool_decide; [done |]. intros _.
  by destruct (merge_body _ _ _ g (merge_state g)).
Qed.




Lemma string_app_inv_head (p x y : string) : p +:+ x = p +:+ y -> x = y.
Proof.
  induction p as [| c p IH]; cbn; [done |]. intros [= H]. by apply IH.
Qed.

Lemma unsupported_operator_eq op :
  unsupported_operator op_enum2name msg0 op
  = unsupported_operator_message op_enum2name op.
Proof. done. Qed.


(** The messages of the first four checks are not those of the later
    failures, nor the empty message. *)
Lemma message_of_not_later e op :
  message_of e <> unsupported_operator_message op_enum2name op /\
  message_of e <> verification_message /\
  message_of e <> "".
Proof. by destruct e as [[] |]. Qed.

Lemma unsupported_operator_message_not_other op :
  unsupported_operator_message op_enum2name op <> verification_message /\
  unsupported_operator_message op_enum2name op <> "".
Proof. done. Qed.

End Results.

(** * The claims *)

Import Examples.

(** The guard of [azmul] holds exactly for the two zeros. *)
Lemma fcmp_oeq_zero_iff (x : double) :
  fcmp_oeq x pos_zero = true <-> exists s, x = S754_zero s.
Proof.
  split.
  - destruct x as [s | [] | | [] m e]; try done. by exists s.
  - by intros (s & ->).
Qed.

(** ** Bounds for the FunCheck example *)

Module FunCheckProofs.
Import FunCheckExample.
Local Open Scope R_scope.

Lemma exp_1_gt_2 : 2 < exp 1.
Proof. pose proof (exp_ineq1 1). lra. Qed.

Lemma exp_minus_1_lt_half : exp (- 1) < / 2.
Proof.
  replace (- 1) with (- (1)) by lra.
  rewrite exp_Ropp. pose proof exp_1_gt_2.
  apply Rinv_lt_contravar; lra.
Qed.

Lemma component_ok_same (x : R) : 0 <= x -> component_ok a r x x = true.
Proof.
  intros Hx. unfold component_ok, a, r.
  destruct (Rle_dec _ _) as [| Hn]; [done |]. exfalso. apply Hn.
  rewrite Rminus_diag, Rabs_R0, (Rabs_right x) by lra. lra.
Qed.

Lemma component_ok_apart : component_ok a r (exp (- 1)) (exp 1) = false.
Proof.
  unfold component_ok, a, r.
  destruct (Rle_dec _ _) as [Hle |]; [| done]. exfalso.
  pose proof exp_1_gt_2. pose proof exp_minus_1_lt_half.
  rewrite Rabs_left, (Rabs_right (exp 1)) in Hle by lra. lra.
Qed.

End FunCheckProofs.

(** C1: for a graph that [from_graph] lowers with the empty message, a
    call with [input_length = n_dynamic_ind + n_variable_ind] and
    [output_length =] the number of dependents returns 0, and leaves at
    every output position [i] the value that the value table of the graph
    (dynamic independents from the front of the input, then the variable
    independents, then the constants, then the operators in sequence
    order) holds for the node [dependent_vec[i]]. *)
Theorem C1_call_stores_dependent_values
    (acosh : double -> double) (NDEBUG : bool)
    (op_enum2name : graph_op_enum -> string)
    (verifyFunction : Function -> bool)
    (ir_obj : llvm_ir) (g : cpp_graph) (ir_obj' : llvm_ir)
    (len_in : Z) (input : list double) (len_out : Z) (output : list double) :
  from_graph NDEBUG op_enum2name verifyFunction ir_obj g
    = Some ("", ir_obj') ->
  call_ok len_in input len_out output ->
  len_in = (Z.of_N (n_dynamic_ind g) + Z.of_N (n_variable_ind g))%Z ->
  len_out = Z.of_nat (length (dependent_vec g)) ->
  exists table output',
    call_artifact acosh ir_obj' len_in input len_out output
      = Some (0%Z, output') /\
    value_table acosh g input = Some table /\
    length output' = length output /\
    forall i node,
      dependent_vec g !! i = Some node ->
      exists d, table_get table node = Some d /\ output' !! i = Some d.
Proof.
  intros Hfg Hcall Hlin Hlout.
  destruct (lowered_run acosh NDEBUG op_enum2name verifyFunction
              _ _ _ _ _ _ _ Hfg Hcall Hlin Hlout)
    as (fn & gi & m & table & stored & Hfn & Hgi & Hrun & Htable
        & Hgraph & Hstored & Hout).
  exists table, (mem_out (mem m)). split.
  { unfold call_artifact, call. rewrite Hfn. cbn [mbind option_bind].
    by rewrite Hrun. }
  split; [done |]. split.
  { rewrite Hout, length_app, length_drop.
    rewrite <- (Forall2_length _ _ _ Hstored).
    destruct Hcall as [_ _ _ Hlo]. lia. }
  intros i node Hnode.
  destruct (Forall2_lookup_l _ _ _ _ _ Hstored Hnode) as (d & Hd & Hget).
  exists d. split; [done |].
  rewrite Hout, lookup_app_l; [done |]. by eapply lookup_lt_Some.
Qed.

Lemma C1_witness :
  from_graph true example_names verifier_accepts fresh_object azmul_graph
    = Some ("", azmul_artifact) /\
  call_ok 2 [neg_zero; pos_inf] 1 [nan] /\
  exists table output',
    call_artifact unused_acosh azmul_artifact 2 [neg_zero; pos_inf] 1 [nan]
      = Some (0%Z, output') /\
    value_table unused_acosh azmul_graph [neg_zero; pos_inf] = Some table /\
    length output' = length [nan] /\
    forall i node,
      dependent_vec azmul_graph !! i = Some node ->
      exists d, table_get table node = Some d /\ output' !! i = Some d.
Proof.
  assert (from_graph true example_names verifier_accepts fresh_object
            azmul_graph = Some ("", azmul_artifact)) as Hfg
    by (vm_compute; reflexivity).
  assert (call_ok 2 [neg_zero; pos_inf] 1 [nan]) as Hcall
    by (split; unfold int32_range; cbn; lia).
  split; [exact Hfg |]. split; [exact Hcall |].
  exact (C1_call_stores_dependent_values unused_acosh true example_names
           verifier_accepts fresh_object azmul_graph azmul_artifact
           2 [neg_zero; pos_inf] 1 [nan] Hfg Hcall eq_refl eq_refl).
Defined.

(** C2: in the run of a lowered graph, the node of an [azmul(a, b)]
    operator has the value [+0.0] whenever the value of its first argument
    compares equal to [0.0], whatever the second argument is (a NaN and an
    infinity included), and the IEEE product of the two values
    otherwise. *)
Theorem C2_azmul_zero_rule
    (acosh : double -> double) (NDEBUG : bool)
    (op_enum2name : graph_op_enum -> string)
    (verifyFunction : Function -> bool)
    (ir_obj : llvm_ir) (g : cpp_graph) (ir_obj' : llvm_ir)
    (len_in : Z) (input : list double) (len_out : Z) (output : list double)
    (k : nat) (v : itr_value) :
  from_graph NDEBUG op_enum2name verifyFunction ir_obj g
    = Some ("", ir_obj') ->
  call_ok len_in input len_out output ->
  len_in = (Z.of_N (n_dynamic_ind g) + Z.of_N (n_variable_ind g))%Z ->
  len_out = Z.of_nat (length (dependent_vec g)) ->
  operator_vec g !! k = Some v -> op_enum v = azmul_graph_op ->
  let value_of :=
    run_node_value acosh NDEBUG op_enum2name ir_obj' g
      len_in input len_out output in
  exists n0 n1 a b r,
    arg_node v !! 0 = Some n0 /\ arg_node v !! 1 = Some n1 /\
    value_of n0 = Some a /\ value_of n1 = Some b /\
    value_of (operator_node g k) = Some r /\
    (fcmp_oeq a pos_zero = true -> r = pos_zero) /\
    (fcmp_oeq a pos_zero = false -> r = fmul a b) /\
    (a = pos_zero -> b = nan \/ b = pos_inf -> r = pos_zero).
Proof.
  intros Hfg Hcall Hlin Hlout Hv Hop value_of.
  destruct (azmul_node_run acosh NDEBUG op_enum2name verifyFunction
              _ _ _ _ _ _ _ _ _ Hfg Hcall Hlin Hlout Hv Hop)
    as (n0 & n1 & a & b & Hn0 & Hn1 & Ha & Hb & Hr).
  exists n0, n1, a, b, (azmul a b).
  do 5 (split; [done |]). unfold azmul.
  split; [by intros -> |]. split; [by intros -> |].
  by intros -> _.
Qed.

Lemma C2_witness :
  from_graph true example_names verifier_accepts fresh_object azmul_graph
    = Some ("", azmul_artifact) /\
  call_ok 2 [pos_zero; nan] 1 [pos_inf] /\
  operator_vec azmul_graph !! 0 = Some azmul_node /\
  let value_of :=
    run_node_value unused_acosh true example_names azmul_artifact
      azmul_graph 2 [pos_zero; nan] 1 [pos_inf] in
  exists n0 n1 a b r,
    arg_node azmul_node !! 0 = Some n0 /\
    arg_node azmul_node !! 1 = Some n1 /\
    value_of n0 = Some a /\ value_of n1 = Some b /\
    value_of (operator_node azmul_graph 0) = Some r /\
    (fcmp_oeq a pos_zero = true -> r = pos_zero) /\
    (fcmp_oeq a pos_zero = false -> r = fmul a b) /\
    (a = pos_zero -> b = nan \/ b = pos_inf -> r = pos_zero).
Proof.
  assert (from_graph true example_names verifier_accepts fresh_object
            azmul_graph = Some ("", azmul_artifact)) as Hfg
    by (vm_compute; reflexivity).
  assert (call_ok 2 [pos_zero; nan] 1 [pos_inf]) as Hcall
    by (split; unfold int32_range; cbn; lia).
  split; [exact Hfg |]. split; [exact Hcall |]. split; [reflexivity |].
  exact (C2_azmul_zero_rule unused_acosh true example_names
           verifier_accepts fresh_object azmul_graph azmul_artifact
           2 [pos_zero; nan] 1 [pos_inf] 0 azmul_node
           Hfg Hcall eq_refl eq_refl eq_refl eq_refl).
Defined.




(** C4: [from_graph] makes the first four checks in the order of the
    specification: a discrete-function table that is not empty, then an
    atomic-call table that is not empty, then a print table that is not
    empty, each reported by a message that names the table, then an empty
    function name.  The first check that fails fixes the message, and for
    a graph with the three tables empty and a name, the outcome is none
    of these four messages. *)
Theorem C4_validation_order
    (NDEBUG : bool) (op_enum2name : graph_op_enum -> string)
    (verifyFunction : Function -> bool)
    (ir_obj : llvm_ir) (g : cpp_graph) :
  match SpecValidation.validate g with
  | Some e =>
      from_graph NDEBUG op_enum2name verifyFunction ir_obj g
      = Some (SpecValidation.message_of e,
              match e with
              | SpecValidation.MissingName => with_scalars ir_obj g
              | SpecValidation.UnsupportedFeature _ => ir_obj
              end)
  | None =>
      forall e,
        fst <$> from_graph NDEBUG op_enum2name verifyFunction ir_obj g
        <> Some (SpecValidation.message_of e)
  end
  /\ SpecValidation.message_of
       (SpecValidation.UnsupportedFeature SpecValidation.discrete)
     = "llvm_ir::from_graph: graph_obj.discrete_name_vec_size() != 0"
  /\ SpecValidation.message_of
       (SpecValidation.UnsupportedFeature SpecValidation.atomic)
     = "llvm_ir::from_graph: graph_obj.atomic_name_vec_size() != 0"
  /\ SpecValidation.message_of
       (SpecValidation.UnsupportedFeature SpecValidation.print)
     = "llvm_ir::from_graph: graph_obj.print_text_vec_size() != 0"
  /\ SpecValidation.message_of SpecValidation.MissingName
     = "llvm_ir::from_graph: graph_obj.function_name_get() is empty".
Proof.
  split; [| done].
  destruct (SpecValidation.validate g) as [e |] eqn:Hval.
  - by apply from_graph_rejected.
  - intros e. rewrite (from_graph_checked _ _ _ ir_obj g Hval).
    destruct (merge_body _ _ _ g (merge_state g)) as [[] s | msg s |]
      eqn:Hbody; [| | done].
    + destruct (message_of_not_later op_enum2name e acosh_graph_op)
        as (_ & Hv & He).
      destruct (verifyFunction _); cbn; congruence.
    + apply merge_body_Return in Hbody as (v & _ & _ & ->).
      rewrite unsupported_operator_eq.
      destruct (message_of_not_later op_enum2name e (op_enum v))
        as (Hu & _ & _).
      cbn. congruence.
Qed.

Lemma C4_witness :
  from_graph true example_names verifier_accepts fresh_object discrete_graph
  = Some ("llvm_ir::from_graph: graph_obj.discrete_name_vec_size() != 0",
          fresh_object).
Proof.
  exact (proj1 (C4_validation_order true example_names verifier_accepts
                  fresh_object discrete_graph)).
Defined.

(** C5: the supported operators are [add], [sub], [mul], [div], [azmul],
    [neg] and [acosh].  A graph that passes the four checks and whose
    first operator outside this set comes after operators that are in
    order makes [from_graph] return the message for an unsupported
    operator, which names that operator; and whenever [from_graph]
    returns this message, the operator it names is one of the graph that
    is outside the set. *)
Theorem C5_unsupported_operator
    (NDEBUG : bool) (op_enum2name : graph_op_enum -> string)
    (verifyFunction : Function -> bool)
    (ir_obj : llvm_ir) (g : cpp_graph) :
  (forall op,
     supported op = true <->
     op ∈ [add_graph_op; sub_graph_op; mul_graph_op; div_graph_op;
           azmul_graph_op; neg_graph_op; acosh_graph_op]) /\
  (forall pre v post,
     SpecValidation.validate g = None ->
     operator_vec g = (pre ++ v :: post)%list ->
     operators_ok (first_operator_node g) pre = true ->
     supported (op_enum v) = false ->
     exists ir_obj',
       from_graph NDEBUG op_enum2name verifyFunction ir_obj g
       = Some (unsupported_operator_message op_enum2name (op_enum v),
               ir_obj')) /\
  (forall tag ir_obj',
     from_graph NDEBUG op_enum2name verifyFunction ir_obj g
     = Some ("llvm_ir::from_graph: graph_obj has following unsupported operator "
               +:+ tag, ir_obj') ->
     exists v, v ∈ operator_vec g /\ supported (op_enum v) = false /\
               tag = op_enum2name (op_enum v)).
Proof.
  split; [| split].
  - intros op. rewrite !elem_of_cons, elem_of_nil.
    destruct op; cbn; split; try done; try tauto.
    intros H. repeat (destruct H as [H | H]; try done).
  - intros pre v post Hval Hops Hpre Hv.
    destruct (merge_body_stop NDEBUG op_enum2name "llvm_ir::from_graph: "
                g pre v post Hops Hpre Hv) as (s & Hs).
    exists (with_function g s).
    by rewrite (from_graph_checked _ _ _ ir_obj g Hval), Hs.
  - intros tag ir_obj' Hfg.
    destruct (SpecValidation.validate g) as [e |] eqn:Hval.
    + rewrite (from_graph_rejected _ _ _ ir_obj g e Hval) in Hfg.
      injection Hfg as Hmsg _. by destruct e as [[] |].
    + rewrite (from_graph_checked _ _ _ ir_obj g Hval) in Hfg.
      destruct (merge_body _ _ _ g (merge_state g)) as [[] s | msg s |]
        eqn:Hbody; [| | done].
      * by destruct (verifyFunction _).
      * injection Hfg as -> _.
        apply merge_body_Return in Hbody as (v & Hin & Hs & Hmsg).
        exists v. split; [done |]. split; [done |].
        rewrite unsupported_operator_eq in Hmsg.
        by apply string_app_inv_head in Hmsg.
Qed.

Lemma C5_witness :
  exists ir_obj',
    from_graph true example_names verifier_accepts fresh_object
      unsupported_graph
    = Some ("llvm_ir::from_graph: graph_obj has following unsupported operator other",
            ir_obj').
Proof.
  exact (proj1 (proj2 (C5_unsupported_operator true example_names
                         verifier_accepts fresh_object unsupported_graph))
           [{| op_enum := add_graph_op; str_index := []; n_result := 1;
               arg_node := [1%N; 2%N] |}]
           {| op_enum := other_graph_op 7; str_index := []; n_result := 1;
              arg_node := [3%N] |}
           [] eq_refl eq_refl eq_refl eq_refl).
Defined.

(** C6: for [f(x) = exp(x)] if [x >= 0] and [exp(-x)] otherwise, with two
    components, recorded at [x = (-1, 1)] and checked with both tolerances
    [1e-10]: the check against the function itself succeeds at the point
    of the recording, fails at the point [(1, -1)] with the signs flipped,
    and succeeds there once the operation sequence is recorded again at
    that point. *)
Theorem C6_funcheck_cases :
  FunCheckExample.check_same = true /\
  FunCheckExample.check_negated = false /\
  FunCheckExample.check_retaped = true.
Proof.
  unfold FunCheckExample.check_same, FunCheckExample.check_negated,
    FunCheckExample.check_retaped, FunCheckExample.FunCheck,
    FunCheckExample.tape, FunCheckExample.g, FunCheckExample.x_negated,
    FunCheckExample.x_same, FunCheckExample.X_first, FunCheckExample.Fun,
    FunCheckExample.Dependent, FunCheckExample.Forward0,
    FunCheckExample.Independent, FunCheckExample.n.
  cbn.
  repeat match goal with
         | |- context [Rle_dec 0 ?x] =>
             destruct (Rle_dec 0 x); try (exfalso; lra)
         end.
  cbn. rewrite !Ropp_involutive.
  replace (- (-1))%R with 1%R by lra.
  replace (- (1))%R with (-1)%R by lra.
  rewrite !FunCheckProofs.component_ok_same
    by (left; apply exp_pos).
  rewrite !FunCheckProofs.component_ok_apart. done.
Qed.





(** C9: the rule of [azmul] looks at the first argument only.  In the run
    of a lowered graph, an [azmul(a, b)] node with [b = 0.0] and [a] a NaN
    or an infinity has the value of the IEEE product [a * 0.0], a NaN; the
    value is the product whenever the first argument does not compare
    equal to [0.0]. *)
Theorem C9_azmul_tests_first_argument_only
    (acosh : double -> double) (NDEBUG : bool)
    (op_enum2name : graph_op_enum -> string)
    (verifyFunction : Function -> bool)
    (ir_obj : llvm_ir) (g : cpp_graph) (ir_obj' : llvm_ir)
    (len_in : Z) (input : list double) (len_out : Z) (output : list double)
    (k : nat) (v : itr_value) :
  from_graph NDEBUG op_enum2name verifyFunction ir_obj g
    = Some ("", ir_obj') ->
  call_ok len_in input len_out output ->
  len_in = (Z.of_N (n_dynamic_ind g) + Z.of_N (n_variable_ind g))%Z ->
  len_out = Z.of_nat (length (dependent_vec g)) ->
  operator_vec g !! k = Some v -> op_enum v = azmul_graph_op ->
  let value_of :=
    run_node_value acosh NDEBUG op_enum2name ir_obj' g
      len_in input len_out output in
  exists n0 n1 a b r,
    arg_node v !! 0 = Some n0 /\ arg_node v !! 1 = Some n1 /\
    value_of n0 = Some a /\ value_of n1 = Some b /\
    value_of (operator_node g k) = Some r /\
    (a = nan -> b = pos_zero -> r = nan) /\
    (forall s, a = S754_infinity s -> b = pos_zero -> r = nan) /\
    ((forall s, a <> S754_zero s) -> r = fmul a b).
Proof.
  intros Hfg Hcall Hlin Hlout Hv Hop value_of.
  destruct (azmul_node_run acosh NDEBUG op_enum2name verifyFunction
              _ _ _ _ _ _ _ _ _ Hfg Hcall Hlin Hlout Hv Hop)
    as (n0 & n1 & a & b & Hn0 & Hn1 & Ha & Hb & Hr).
  exists n0, n1, a, b, (azmul a b).
  do 5 (split; [done |]). unfold azmul.
  split; [by intros -> -> |]. split; [by intros [] -> -> |].
  intros Hnz. destruct (fcmp_oeq a pos_zero) eqn:Hcmp; [| done].
  apply fcmp_oeq_zero_iff in Hcmp as (s & ->). by destruct (Hnz s).
Qed.

Lemma C9_witness :
  from_graph true example_names verifier_accepts fresh_object azmul_graph
    = Some ("", azmul_artifact) /\
  call_ok 2 [nan; pos_zero] 1 [pos_zero] /\
  operator_vec azmul_graph !! 0 = Some azmul_node /\
  let value_of :=
    run_node_value unused_acosh true example_names azmul_artifact
      azmul_graph 2 [nan; pos_zero] 1 [pos_zero] in
  exists n0 n1 a b r,
    arg_node azmul_node !! 0 = Some n0 /\
    arg_node azmul_node !! 1 = Some n1 /\
    value_of n0 = Some a /\ value_of n1 = Some b /\
    value_of (operator_node azmul_graph 0) = Some r /\
    (a = nan -> b = pos_zero -> r = nan) /\
    (forall s, a = S754_infinity s -> b = pos_zero -> r = nan) /\
    ((forall s, a <> S754_zero s) -> r = fmul a b).
Proof.
  assert (from_graph true example_names verifier_accepts fresh_object
            azmul_graph = Some ("", azmul_artifact)) as Hfg
    by (vm_compute; reflexivity).
  assert (call_ok 2 [nan; pos_zero] 1 [pos_zero]) as Hcall
    by (split; unfold int32_range; cbn; lia).
  split; [exact Hfg |]. split; [exact Hcall |]. split; [reflexivity |].
  exact (C9_azmul_tests_first_argument_only unused_acosh true example_names
           verifier_accepts fresh_object azmul_graph azmul_artifact
           2 [nan; pos_zero] 1 [pos_zero] 0 azmul_node
           Hfg Hcall eq_refl eq_refl eq_refl eq_refl).
Defined.

(** C10: the guard of [azmul] is an ordered comparison with [+0.0], for
    which [-0.0] is equal to [0.0]: in the run of a lowered graph, an
    [azmul] node whose first argument is [-0.0] has the value [+0.0],
    whatever the second argument is. *)
Theorem C10_azmul_negative_zero
    (acosh : double -> double) (NDEBUG : bool)
    (op_enum2name : graph_op_enum -> string)
    (verifyFunction : Function -> bool)
    (ir_obj : llvm_ir) (g : cpp_graph) (ir_obj' : llvm_ir)
    (len_in : Z) (input : list double) (len_out : Z) (output : list double)
    (k : nat) (v : itr_value) :
  from_graph NDEBUG op_enum2name verifyFunction ir_obj g
    = Some ("", ir_obj') ->
  call_ok len_in input len_out output ->
  len_in = (Z.of_N (n_dynamic_ind g) + Z.of_N (n_variable_ind g))%Z ->
  len_out = Z.of_nat (length (dependent_vec g)) ->
  operator_vec g !! k = Some v -> op_enum v = azmul_graph_op ->
  let value_of :=
    run_node_value acosh NDEBUG op_enum2name ir_obj' g
      len_in input len_out output in
  fcmp_oeq neg_zero pos_zero = true /\
  exists n0 n1 a b r,
    arg_node v !! 0 = Some n0 /\ arg_node v !! 1 = Some n1 /\
    value_of n0 = Some a /\ value_of n1 = Some b /\
    value_of (operator_node g k) = Some r /\
    (a = neg_zero -> r = pos_zero).
Proof.
  intros Hfg Hcall Hlin Hlout Hv Hop value_of. split; [done |].
  destruct (azmul_node_run acosh NDEBUG op_enum2name verifyFunction
              _ _ _ _ _ _ _ _ _ Hfg Hcall Hlin Hlout Hv Hop)
    as (n0 & n1 & a & b & Hn0 & Hn1 & Ha & Hb & Hr).
  exists n0, n1, a, b, (azmul a b).
  do 5 (split; [done |]). by intros ->.
Qed.

Lemma C10_witness :
  from_graph true example_names verifier_accepts fresh_object azmul_graph
    = Some ("", azmul_artifact) /\
  call_ok 2 [neg_zero; pos_inf] 1 [nan] /\
  operator_vec azmul_graph !! 0 = Some azmul_node /\
  let value_of :=
    run_node_value unused_acosh true example_names azmul_artifact
      azmul_graph 2 [neg_zero; pos_inf] 1 [nan] in
  fcmp_oeq neg_zero pos_zero = true /\
  exists n0 n1 a b r,
    arg_node azmul_node !! 0 = Some n0 /\
    arg_node azmul_node !! 1 = Some n1 /\
    value_of n0 = Some a /\ value_of n1 = Some b /\
    value_of (operator_node azmul_graph 0) = Some r /\
    (a = neg_zero -> r = pos_zero).
Proof.
  assert (from_graph true example_names verifier_accepts fresh_object
            azmul_graph = Some ("", azmul_artifact)) as Hfg
    by (vm_compute; reflexivity).
  assert (call_ok 2 [neg_zero; pos_inf] 1 [nan]) as Hcall
    by (split; unfold int32_range; cbn; lia).
  split; [exact Hfg |]. split; [exact Hcall |]. split; [reflexivity |].
  exact (C10_azmul_negative_zero unused_acosh true example_names
           verifier_accepts fresh_object azmul_graph azmul_artifact
           2 [neg_zero; pos_inf] 1 [nan] 0 azmul_node
           Hfg Hcall eq_refl eq_refl eq_refl eq_refl).
Defined.
